(** * MomentumMassElemKernel: element kernel of the unsteady momentum mass term

    A shallow embedding of [src/MomentumMassElemKernel.C] (Nalu): the
    constructor, [setup] and [execute] of the class template
    [MomentumMassElemKernel<AlgTraits>], followed by the properties the
    specification states about them.

    Numbers.  The kernel computes in C++ [double].  Every definition below is
    written over an arbitrary carrier [D] with the six operations the source
    uses (the literal [0.0], [+], binary and unary [-], [*], [/]); nothing is
    assumed about them, so whatever is proved there holds for IEEE binary64
    (instance [Binary64.float_scalar]) as well as for exact arithmetic
    (instance [Exact.Qc_scalar]).  Properties that rest on algebraic
    identities ([0 * x = 0], interpolation of a constant, ...) are proved in
    section [ExactArithmetic] under the field laws, i.e. for the real-number
    reading of the formulas; rounding, infinities and NaN are outside that
    section.

    Memory.  A Kokkos view is a map from indices to scalars: [View1] for
    [v(i)], [View2] for [v(i,j)].  The source does no bounds checks; the
    sizes of the views are the caller's contract and are not modelled.
    The [int] loop counters and node indices are natural numbers.  The
    member scratch vectors [v_uNm1_], [v_uN_], [v_uNp1_], [v_Gjp_] are part
    of the kernel object and [execute] writes them, so [execute] returns the
    kernel object together with the two buffers. *)

From Stdlib Require Import Arith ZArith Lia List Bool String.
From Stdlib Require Import Field.
From Stdlib Require QArith Qcanon.
From Stdlib Require PrimFloat Uint63.

Set Implicit Arguments.

(** ** Scalars *)

Class Scalar (D : Type) : Type := MkScalar {
  dzero : D;
  dadd : D -> D -> D;
  dsub : D -> D -> D;
  dopp : D -> D;
  dmul : D -> D -> D;
  ddiv : D -> D -> D
}.

Declare Scope dbl_scope.
Delimit Scope dbl_scope with dbl.
Infix "+" := dadd : dbl_scope.
Infix "-" := dsub : dbl_scope.
Infix "*" := dmul : dbl_scope.
Infix "/" := ddiv : dbl_scope.
Notation "- x" := (dopp x) : dbl_scope.

(** ** Loops and views *)

(** [for (int i = 0; i < n; ++i) body]: the body runs for i = 0, 1, ..., n-1
    in that order, each run starting from the state the previous one left. *)
Fixpoint for_loop {St : Type} (n : nat) (body : nat -> St -> St) (s : St) : St :=
  match n with
  | O => s
  | S m => body m (for_loop m body s)
  end.

(** A one-dimensional view [v(i)] and a two-dimensional view [v(i,j)] of
    doubles, with the write [v(i) = x] and [v(i,j) = x]. *)
Definition View1 (D : Type) : Type := nat -> D.
Definition View2 (D : Type) : Type := nat -> nat -> D.

Definition upd1 {D : Type} (v : View1 D) (i : nat) (x : D) : View1 D :=
  fun i' => if Nat.eqb i' i then x else v i'.

Definition upd2 {D : Type} (v : View2 D) (i j : nat) (x : D) : View2 D :=
  fun i' j' => if Nat.eqb i' i && Nat.eqb j' j then x else v i' j'.

(** ** Collaborators (declared outside this file of the repository) *)

(** [AlgTraits]: the compile-time constants of one element topology. *)
Record Traits : Type := MkTraits {
  nDim_ : nat;
  nodesPerElement_ : nat;
  numScvIp_ : nat
}.

(** [stk::mesh::FieldState]. *)
Inductive FieldState : Type := StateNP1 | StateN | StateNM1.

(** A field instance is identified by its ordinal in the mesh meta data; the
    scratch views are keyed by it. *)
Definition FieldHandle : Type := nat.

(** What the constructor uses of an [stk::mesh::Field]. *)
Record Field : Type := MkField {
  field_ordinal : FieldHandle;
  number_of_states : nat;
  field_of_state : FieldState -> FieldHandle
}.

(** [stk::mesh::MetaData::get_field(NODE_RANK, name)]: a null pointer
    ([None]) when the mesh has no such field. *)
Record MetaData : Type := MkMetaData {
  get_field : string -> option Field
}.

Record SolutionOptions : Type := MkSolutionOptions {
  get_coordinates_name : string
}.

Inductive ME_CALL : Type := SCV_VOLUME.

(** Modelled from the spec: [ElemDataRequests] is declared outside this
    source file.  The specification describes it as a sink with two
    registrations and no return value: "register a per-element gathered
    field requirement (field, component count)" and "register a geometric
    integration requirement".  One registration is one [DataRequest]. *)
Inductive DataRequest : Type :=
| cvfem_volume_me
| gathered_nodal_field (f : FieldHandle) (ncomp : nat)
| master_element_call (c : ME_CALL).

(** Modelled from the spec: the sink [ElemDataRequests], absent from the
    source, as the sequence of the registrations made on it, oldest first.
    It records the calls the constructor makes and nothing of what the sink
    does with them. *)
Definition ElemDataRequests : Type := list DataRequest.

(** Modelled from the spec: [ElemDataRequests::add_cvfem_volume_me], absent
    from the source; the call is recorded. *)
Definition add_cvfem_volume_me (r : ElemDataRequests) : ElemDataRequests :=
  r ++ cvfem_volume_me :: nil.

(** Modelled from the spec: [ElemDataRequests::add_gathered_nodal_field],
    absent from the source; the call is recorded with the field and the
    component count it is given. *)
Definition add_gathered_nodal_field (f : FieldHandle) (ncomp : nat)
    (r : ElemDataRequests) : ElemDataRequests :=
  r ++ gathered_nodal_field f ncomp :: nil.

(** Modelled from the spec: [ElemDataRequests::add_master_element_call],
    absent from the source; the call is recorded. *)
Definition add_master_element_call (c : ME_CALL) (r : ElemDataRequests)
    : ElemDataRequests :=
  r ++ master_element_call c :: nil.

Section Kernel.

Context {D : Type} {SD : Scalar D}.
Local Open Scope dbl_scope.

(** The volume master element of the topology: the owning node of each
    integration point and the two shape-function tables, indexed
    (integration point, local node). *)
Record MasterElement : Type := MkMasterElement {
  ipNodeMap : nat -> nat;
  shape_fcn : View2 D;
  shifted_shape_fcn : View2 D
}.

Record TimeIntegrator : Type := MkTimeIntegrator {
  get_time_step : D;
  get_gamma1 : D;
  get_gamma2 : D;
  get_gamma3 : D
}.

(** [ScratchViews]: the gathered nodal values per field and the
    sub-control-volume measures. *)
Record ScratchViews : Type := MkScratchViews {
  get_scratch_view_1D : FieldHandle -> View1 D;
  get_scratch_view_2D : FieldHandle -> View2 D;
  scv_volume : View1 D
}.

(** [AlgTraits] and [get_volume_master_element(AlgTraits::topo_)]. *)
Variable AlgTraits : Traits.
Variable get_volume_master_element : MasterElement.

Local Abbreviation nDim := (nDim_ AlgTraits).
Local Abbreviation nodesPerElement := (nodesPerElement_ AlgTraits).
Local Abbreviation numScvIp := (numScvIp_ AlgTraits).

(** ** The kernel object *)

Record Kernel : Type := MkKernel {
  lumpedMass_ : bool;
  ipNodeMap_ : nat -> nat;
  velocityNm1_ : FieldHandle;
  velocityN_ : FieldHandle;
  velocityNp1_ : FieldHandle;
  densityNm1_ : FieldHandle;
  densityN_ : FieldHandle;
  densityNp1_ : FieldHandle;
  Gjp_ : FieldHandle;
  coordinates_ : FieldHandle;
  dt_ : D;
  gamma1_ : D;
  gamma2_ : D;
  gamma3_ : D;
  v_uNm1_ : View1 D;
  v_uN_ : View1 D;
  v_uNp1_ : View1 D;
  v_Gjp_ : View1 D;
  v_shape_function_ : View2 D
}.

(** Writes to the member scratch vectors, [v_uNm1_(j) = x] and so on. *)
Definition set_v_uNm1_ (j : nat) (x : D) (k : Kernel) : Kernel :=
  MkKernel (lumpedMass_ k) (ipNodeMap_ k)
    (velocityNm1_ k) (velocityN_ k) (velocityNp1_ k)
    (densityNm1_ k) (densityN_ k) (densityNp1_ k) (Gjp_ k) (coordinates_ k)
    (dt_ k) (gamma1_ k) (gamma2_ k) (gamma3_ k)
    (upd1 (v_uNm1_ k) j x) (v_uN_ k) (v_uNp1_ k) (v_Gjp_ k)
    (v_shape_function_ k).

Definition set_v_uN_ (j : nat) (x : D) (k : Kernel) : Kernel :=
  MkKernel (lumpedMass_ k) (ipNodeMap_ k)
    (velocityNm1_ k) (velocityN_ k) (velocityNp1_ k)
    (densityNm1_ k) (densityN_ k) (densityNp1_ k) (Gjp_ k) (coordinates_ k)
    (dt_ k) (gamma1_ k) (gamma2_ k) (gamma3_ k)
    (v_uNm1_ k) (upd1 (v_uN_ k) j x) (v_uNp1_ k) (v_Gjp_ k)
    (v_shape_function_ k).

Definition set_v_uNp1_ (j : nat) (x : D) (k : Kernel) : Kernel :=
  MkKernel (lumpedMass_ k) (ipNodeMap_ k)
    (velocityNm1_ k) (velocityN_ k) (velocityNp1_ k)
    (densityNm1_ k) (densityN_ k) (densityNp1_ k) (Gjp_ k) (coordinates_ k)
    (dt_ k) (gamma1_ k) (gamma2_ k) (gamma3_ k)
    (v_uNm1_ k) (v_uN_ k) (upd1 (v_uNp1_ k) j x) (v_Gjp_ k)
    (v_shape_function_ k).

Definition set_v_Gjp_ (j : nat) (x : D) (k : Kernel) : Kernel :=
  MkKernel (lumpedMass_ k) (ipNodeMap_ k)
    (velocityNm1_ k) (velocityN_ k) (velocityNp1_ k)
    (densityNm1_ k) (densityN_ k) (densityNp1_ k) (Gjp_ k) (coordinates_ k)
    (dt_ k) (gamma1_ k) (gamma2_ k) (gamma3_ k)
    (v_uNm1_ k) (v_uN_ k) (v_uNp1_ k) (upd1 (v_Gjp_ k) j x)
    (v_shape_function_ k).

(** ** Constructor (source lines 27-83)

    The result [Some] is the constructor running to its end on a mesh that
    has the four fields; that path follows lines 38-82 statement by
    statement.  [None] stands for a mesh that lacks one of them, where the
    source has undefined behaviour: the null "velocity" or "density" pointer
    is used for a member call (lines 44-56), and the null "dpdx" or
    coordinate pointer is dereferenced to bind the reference handed to the
    sink (lines 74, 81); what happens then is not decided in this file, and
    nothing below is proved about that path.  [field_of_state] is taken as
    stk gives it for the states the field has.  The members the constructor
    body does not assign ([dt_], the gammas, the scratch vectors) are taken
    to start at [0.0]; their declarations are in the header. *)
Definition MomentumMassElemKernel (metaData : MetaData)
    (solnOpts : SolutionOptions) (dataPreReqs : ElemDataRequests)
    (lumpedMass : bool) : option (Kernel * ElemDataRequests) :=
  match get_field metaData "velocity", get_field metaData "density",
        get_field metaData "dpdx",
        get_field metaData (get_coordinates_name solnOpts) with
  | Some velocity, Some density, Some Gjp, Some coordinates =>
      let velocityN := field_of_state velocity StateN in
      let velocityNp1 := field_of_state velocity StateNP1 in
      let velocityNm1 :=
        if Nat.eqb (number_of_states velocity) 2 then velocityN
        else field_of_state velocity StateNM1 in
      let densityN := field_of_state density StateN in
      let densityNp1 := field_of_state density StateNP1 in
      let densityNm1 :=
        if Nat.eqb (number_of_states density) 2 then densityN
        else field_of_state density StateNM1 in
      let meSCV := get_volume_master_element in
      let shape_function :=
        if lumpedMass then shifted_shape_fcn meSCV else shape_fcn meSCV in
      let reqs :=
        add_master_element_call SCV_VOLUME
          (add_gathered_nodal_field (field_ordinal Gjp) nDim
          (add_gathered_nodal_field velocityNp1 nDim
          (add_gathered_nodal_field velocityN nDim
          (add_gathered_nodal_field velocityNm1 nDim
          (add_gathered_nodal_field densityNp1 1
          (add_gathered_nodal_field densityN 1
          (add_gathered_nodal_field densityNm1 1
          (add_gathered_nodal_field (field_ordinal coordinates) nDim
          (add_cvfem_volume_me dataPreReqs))))))))) in
      Some (MkKernel lumpedMass (ipNodeMap meSCV)
              velocityNm1 velocityN velocityNp1
              densityNm1 densityN densityNp1
              (field_ordinal Gjp) (field_ordinal coordinates)
              dzero dzero dzero dzero
              (fun _ => dzero) (fun _ => dzero) (fun _ => dzero)
              (fun _ => dzero)
              shape_function,
            reqs)
  | _, _, _, _ => None
  end.

(** ** setup (source lines 89-97) *)
Definition setup (timeIntegrator : TimeIntegrator) (k : Kernel) : Kernel :=
  MkKernel (lumpedMass_ k) (ipNodeMap_ k)
    (velocityNm1_ k) (velocityN_ k) (velocityNp1_ k)
    (densityNm1_ k) (densityN_ k) (densityNp1_ k) (Gjp_ k) (coordinates_ k)
    (get_time_step timeIntegrator)
    (get_gamma1 timeIntegrator)
    (get_gamma2 timeIntegrator)
    (get_gamma3 timeIntegrator)
    (v_uNm1_ k) (v_uN_ k) (v_uNp1_ k) (v_Gjp_ k)
    (v_shape_function_ k).

(** ** execute (source lines 99-167) *)

(** The three local doubles [rhoNm1], [rhoN], [rhoNp1] of one integration
    point. *)
Record Rho : Type := MkRho { rhoNm1 : D; rhoN : D; rhoNp1 : D }.

(** What a call of [execute] changes: the kernel object (its scratch
    vectors) and the two caller-owned buffers. *)
Record Exec : Type := MkExec {
  this_ : Kernel;
  lhs_ : View2 D;
  rhs_ : View1 D
}.

Section Execute.

(** The views bound at the top of [execute] (lines 107-115). *)
Variables v_densityNm1 v_densityN v_densityNp1 : View1 D.
Variables v_velocityNm1 v_velocityN v_velocityNp1 v_Gpdx : View2 D.
Variable v_scv_volume : View1 D.

(** Lines 123-128. *)
Definition zero_ip_vectors (k : Kernel) : Kernel :=
  for_loop nDim
    (fun j k =>
       set_v_Gjp_ j dzero
         (set_v_uNp1_ j dzero (set_v_uN_ j dzero (set_v_uNm1_ j dzero k))))
    k.

(** Lines 136-141, for one local node [ic] with weight [r]. *)
Definition accumulate_vectors (r : D) (ic : nat) (k : Kernel) : Kernel :=
  for_loop nDim
    (fun j k =>
       let k := set_v_uNm1_ j (v_uNm1_ k j + r * v_velocityNm1 ic j) k in
       let k := set_v_uN_ j (v_uN_ k j + r * v_velocityN ic j) k in
       let k := set_v_uNp1_ j (v_uNp1_ k j + r * v_velocityNp1 ic j) k in
       set_v_Gjp_ j (v_Gjp_ k j + r * v_Gpdx ic j) k)
    k.

(** Lines 130-142. *)
Definition interpolate_ip (ip : nat) (rho0 : Rho) (k : Kernel) : Rho * Kernel :=
  for_loop nodesPerElement
    (fun ic st =>
       let '(rho, k) := st in
       let r := v_shape_function_ k ip ic in
       (MkRho (rhoNm1 rho + r * v_densityNm1 ic)
              (rhoN rho + r * v_densityN ic)
              (rhoNp1 rho + r * v_densityNp1 ic),
        accumulate_vectors r ic k))
    (rho0, k).

(** Lines 120-142: the interpolation phase of one integration point. *)
Definition ip_interpolation (ip : nat) (k : Kernel) : Rho * Kernel :=
  interpolate_ip ip (MkRho dzero dzero dzero) (zero_ip_vectors k).

(** Lines 147-153. *)
Definition compute_rhs (k : Kernel) (rho : Rho) (scV : D) (nnNdim : nat)
    (rhs : View1 D) : View1 D :=
  for_loop nDim
    (fun j rhs =>
       upd1 rhs (nnNdim + j)
         (rhs (nnNdim + j)%nat
          + (- (gamma1_ k * rhoNp1 rho * v_uNp1_ k j
                + gamma2_ k * rhoN rho * v_uN_ k j
                + gamma3_ k * rhoNm1 rho * v_uNm1_ k j) * scV / dt_ k
             - v_Gjp_ k j * scV)))
    rhs.

(** Lines 156-165. *)
Definition compute_lhs (k : Kernel) (rho : Rho) (scV : D) (ip nnNdim : nat)
    (lhs : View2 D) : View2 D :=
  for_loop nodesPerElement
    (fun ic lhs =>
       let icNdim := (ic * nDim)%nat in
       let r := v_shape_function_ k ip ic in
       let lhsfac := r * gamma1_ k * rhoNp1 rho * scV / dt_ k in
       for_loop nDim
         (fun j lhs =>
            let indexNN := (nnNdim + j)%nat in
            upd2 lhs indexNN (icNdim + j)
              (lhs indexNN (icNdim + j)%nat + lhsfac))
         lhs)
    lhs.

(** The body of the loop over integration points (lines 118-165). *)
Definition ip_body (ip : nat) (st : Exec) : Exec :=
  let nearestNode := ipNodeMap_ (this_ st) ip in
  let '(rho, k) := ip_interpolation ip (this_ st) in
  let scV := v_scv_volume ip in
  let nnNdim := (nearestNode * nDim)%nat in
  MkExec k
    (compute_lhs k rho scV ip nnNdim (lhs_ st))
    (compute_rhs k rho scV nnNdim (rhs_ st)).

End Execute.

(** The loop body with the views of lines 107-115 bound from the scratch
    context through the field handles of the kernel. *)
Definition execute_ip (scratchViews : ScratchViews) (k : Kernel)
    : nat -> Exec -> Exec :=
  ip_body
    (get_scratch_view_1D scratchViews (densityNm1_ k))
    (get_scratch_view_1D scratchViews (densityN_ k))
    (get_scratch_view_1D scratchViews (densityNp1_ k))
    (get_scratch_view_2D scratchViews (velocityNm1_ k))
    (get_scratch_view_2D scratchViews (velocityN_ k))
    (get_scratch_view_2D scratchViews (velocityNp1_ k))
    (get_scratch_view_2D scratchViews (Gjp_ k))
    (scv_volume scratchViews).

Definition execute (lhs : View2 D) (rhs : View1 D)
    (scratchViews : ScratchViews) (k : Kernel) : Exec :=
  for_loop numScvIp (execute_ip scratchViews k) (MkExec k lhs rhs).

(** The interpolation phase of [execute] at integration point [ip], run on
    the kernel object [this] as an earlier iteration left it. *)
Definition execute_interpolation (scratchViews : ScratchViews) (k : Kernel)
    (ip : nat) (this : Kernel) : Rho * Kernel :=
  ip_interpolation
    (get_scratch_view_1D scratchViews (densityNm1_ k))
    (get_scratch_view_1D scratchViews (densityN_ k))
    (get_scratch_view_1D scratchViews (densityNp1_ k))
    (get_scratch_view_2D scratchViews (velocityNm1_ k))
    (get_scratch_view_2D scratchViews (velocityN_ k))
    (get_scratch_view_2D scratchViews (velocityNp1_ k))
    (get_scratch_view_2D scratchViews (Gjp_ k))
    ip this.

(** ** The quantities the specification names *)

(** Interpolation to an integration point: the sum over the local nodes, in
    ascending order and starting from [0.0], of weight times nodal value. *)
Definition interp_from (w v : View1 D) (n : nat) (a : D) : D :=
  for_loop n (fun ic acc => acc + w ic * v ic) a.

Definition interpolate (w v : View1 D) : D :=
  interp_from w v nodesPerElement dzero.

(** The sum of one row of the shape-function table over the local nodes. *)
Definition row_sum (w : View1 D) : D :=
  for_loop nodesPerElement (fun ic acc => acc + w ic) dzero.

(** The members of the kernel that [execute] only reads. *)
Definition config (k : Kernel) :=
  (lumpedMass_ k, ipNodeMap_ k,
   (velocityNm1_ k, velocityN_ k, velocityNp1_ k),
   (densityNm1_ k, densityN_ k, densityNp1_ k),
   (Gjp_ k, coordinates_ k),
   (dt_ k, gamma1_ k, gamma2_ k, gamma3_ k),
   v_shape_function_ k).

Section Quantities.

Variable sv : ScratchViews.
Variable k : Kernel.

Definition weight (ip ic : nat) : D := v_shape_function_ k ip ic.
Definition scV (ip : nat) : D := scv_volume sv ip.
Definition nearestNode (ip : nat) : nat := ipNodeMap_ k ip.

Definition rho_nm1 (ip : nat) : D :=
  interpolate (weight ip) (get_scratch_view_1D sv (densityNm1_ k)).
Definition rho_n (ip : nat) : D :=
  interpolate (weight ip) (get_scratch_view_1D sv (densityN_ k)).
Definition rho_np1 (ip : nat) : D :=
  interpolate (weight ip) (get_scratch_view_1D sv (densityNp1_ k)).

Definition u_nm1 (ip j : nat) : D :=
  interpolate (weight ip)
    (fun ic => get_scratch_view_2D sv (velocityNm1_ k) ic j).
Definition u_n (ip j : nat) : D :=
  interpolate (weight ip)
    (fun ic => get_scratch_view_2D sv (velocityN_ k) ic j).
Definition u_np1 (ip j : nat) : D :=
  interpolate (weight ip)
    (fun ic => get_scratch_view_2D sv (velocityNp1_ k) ic j).
Definition Gjp (ip j : nat) : D :=
  interpolate (weight ip) (fun ic => get_scratch_view_2D sv (Gjp_ k) ic j).

(** The value the source adds to [rhs(nnNdim + j)] at line 148, as written
    there. *)
Definition rhs_increment (ip j : nat) : D :=
  - (gamma1_ k * rho_np1 ip * u_np1 ip j
     + gamma2_ k * rho_n ip * u_n ip j
     + gamma3_ k * rho_nm1 ip * u_nm1 ip j) * scV ip / dt_ k
  - Gjp ip j * scV ip.

(** The quantity the specification says is subtracted from the residual. *)
Definition rhs_subtrahend (ip j : nat) : D :=
  (gamma1_ k * rho_np1 ip * u_np1 ip j
   + gamma2_ k * rho_n ip * u_n ip j
   + gamma3_ k * rho_nm1 ip * u_nm1 ip j) * scV ip / dt_ k
  + Gjp ip j * scV ip.

(** The value added to the Jacobian entries of local node [ic]. *)
Definition lhs_increment (ip ic : nat) : D :=
  weight ip ic * gamma1_ k * rho_np1 ip * scV ip / dt_ k.

(** Residual entry [i] after all integration points, from its content [a]
    before the call: for ip and then j ascending, the increment is added
    where the source's index [nnNdim + j] is [i]. *)
Definition rhs_after (i : nat) (a : D) : D :=
  for_loop numScvIp
    (fun ip acc =>
       for_loop nDim
         (fun j acc =>
            if Nat.eqb i (nearestNode ip * nDim + j)
            then acc + rhs_increment ip j else acc)
         acc)
    a.

(** Jacobian entry [(r, c)] after all integration points, likewise. *)
Definition lhs_after (r c : nat) (a : D) : D :=
  for_loop numScvIp
    (fun ip acc =>
       for_loop nodesPerElement
         (fun ic acc =>
            for_loop nDim
              (fun j acc =>
                 if Nat.eqb r (nearestNode ip * nDim + j)
                    && Nat.eqb c (ic * nDim + j)
                 then acc + lhs_increment ip ic else acc)
              acc)
         acc)
    a.

(** The increments of one residual entry and of one Jacobian entry, in the
    order the source adds them. *)
Definition rhs_increments (i : nat) : list D :=
  flat_map
    (fun ip =>
       flat_map
         (fun j =>
            if Nat.eqb i (nearestNode ip * nDim + j)
            then rhs_increment ip j :: nil else nil)
         (seq 0 nDim))
    (seq 0 numScvIp).

Definition lhs_increments (r c : nat) : list D :=
  flat_map
    (fun ip =>
       flat_map
         (fun ic =>
            flat_map
              (fun j =>
                 if Nat.eqb r (nearestNode ip * nDim + j)
                    && Nat.eqb c (ic * nDim + j)
                 then lhs_increment ip ic :: nil else nil)
              (seq 0 nDim))
         (seq 0 nodesPerElement))
    (seq 0 numScvIp).

End Quantities.

(** Node [n] owns integration point [ip]. *)
Definition owns (k : Kernel) (n ip : nat) : bool :=
  Nat.eqb (ipNodeMap_ k ip) n.

(** Freshly zeroed output buffers. *)
Definition zero_lhs : View2 D := fun _ _ => dzero.
Definition zero_rhs : View1 D := fun _ => dzero.

(** Two gathered views hold the same nodal values for the element: at every
    local node, and for a vector field at every component. *)
Definition same_nodal_1D (v v' : View1 D) : Prop :=
  forall ic, ic < nodesPerElement -> v ic = v' ic.
Definition same_nodal_2D (v v' : View2 D) : Prop :=
  forall ic j, ic < nodesPerElement -> j < nDim -> v ic j = v' ic j.

(** Two scratch contexts hold the same sub-control-volume measures. *)
Definition same_scv_volume (sv sv' : ScratchViews) : Prop :=
  forall ip, ip < numScvIp -> scv_volume sv ip = scv_volume sv' ip.

End Kernel.

(** ** Instances of the scalar operations *)

(** IEEE binary64, the [double] of the source. *)
Module Binary64.

#[export] Instance float_scalar : Scalar PrimFloat.float :=
  MkScalar PrimFloat.zero PrimFloat.add PrimFloat.sub PrimFloat.opp
    PrimFloat.mul PrimFloat.div.

Definition of_Z (z : Z) : PrimFloat.float :=
  match z with
  | Z0 => PrimFloat.zero
  | Zpos p => PrimFloat.of_uint63 (Uint63.of_pos p)
  | Zneg p => PrimFloat.opp (PrimFloat.of_uint63 (Uint63.of_pos p))
  end.

(** The double nearest to a/b. *)
Definition ratio (a : Z) (b : positive) : PrimFloat.float :=
  PrimFloat.div (of_Z a) (of_Z (Zpos b)).

End Binary64.

(** Exact rational arithmetic. *)
Module Exact.

Import QArith Qcanon.

#[export] Instance Qc_scalar : Scalar Qc :=
  MkScalar (Q2Qc 0) Qcplus Qcminus Qcopp Qcmult Qcdiv.

Definition ratio (a : Z) (b : positive) : Qc := Q2Qc (a # b).

Definition one : Qc := Q2Qc 1.
Definition inv : Qc -> Qc := Qcinv.

(** The rationals satisfy the field laws. *)
Definition Qc_field :
  field_theory dzero one dadd dmul dsub dopp ddiv inv (@eq Qc) := Qcft.

End Exact.

(** ** A three-node triangle, for concrete evaluation

    The data of this part are over any scalar type that has the rationals
    in it ([of_ratio]); they are run below in both instances. *)
Section Tri3.

Context {D : Type} {SD : Scalar D}.
Variable of_ratio : Z -> positive -> D.

Definition tri3 : Traits := MkTraits 2 3 3.

(** The same element with only its first two integration points visited:
    local node 2 then owns none. *)
Definition tri3_two_ips : Traits := MkTraits 2 3 2.

(** Weights of the sub-control-volume centroids of a triangle, and the
    shifted (nodal) weights. *)
Definition tri3_scv : MasterElement :=
  MkMasterElement
    (fun ip => ip)
    (fun ip ic => if Nat.eqb ip ic then of_ratio 7 12 else of_ratio 5 24)
    (fun ip ic => if Nat.eqb ip ic then of_ratio 1 1 else of_ratio 0 1).

(** A mesh with a three-state velocity, a two-state density, the projected
    pressure gradient and the coordinates. *)
Definition tri3_mesh : MetaData :=
  MkMetaData
    (fun name =>
       if String.eqb name "velocity" then
         Some (MkField 10 3
                 (fun s => match s with
                           | StateNP1 => 10 | StateN => 11 | StateNM1 => 12
                           end))
       else if String.eqb name "density" then
         Some (MkField 20 2
                 (fun s => match s with
                           | StateNP1 => 20 | StateN => 21 | StateNM1 => 22
                           end))
       else if String.eqb name "dpdx" then Some (MkField 30 1 (fun _ => 30))
       else if String.eqb name "coordinates" then
         Some (MkField 40 1 (fun _ => 40))
       else None).

(** The same mesh with a two-state velocity and a three-state density. *)
Definition tri3_mesh_restart : MetaData :=
  MkMetaData
    (fun name =>
       if String.eqb name "velocity" then
         Some (MkField 10 2
                 (fun s => match s with
                           | StateNP1 => 10 | StateN => 11 | StateNM1 => 12
                           end))
       else if String.eqb name "density" then
         Some (MkField 20 3
                 (fun s => match s with
                           | StateNP1 => 20 | StateN => 21 | StateNM1 => 22
                           end))
       else get_field tri3_mesh name).

Definition tri3_options : SolutionOptions := MkSolutionOptions "coordinates".

(** The kernel the constructor builds on that mesh (consistent mass). *)
Definition tri3_new : Kernel :=
  MkKernel false (fun ip => ip) 12 11 10 21 21 20 30 40
    dzero dzero dzero dzero
    (fun _ => dzero) (fun _ => dzero) (fun _ => dzero) (fun _ => dzero)
    (shape_fcn tri3_scv).

(** The kernel the constructor builds on [tri3_mesh_restart]. *)
Definition tri3_new_restart : Kernel :=
  MkKernel false (fun ip => ip) 11 11 10 22 21 20 30 40
    dzero dzero dzero dzero
    (fun _ => dzero) (fun _ => dzero) (fun _ => dzero) (fun _ => dzero)
    (shape_fcn tri3_scv).

Definition tri3_requests : ElemDataRequests :=
  cvfem_volume_me
  :: gathered_nodal_field 40 2
  :: gathered_nodal_field 21 1 :: gathered_nodal_field 21 1
  :: gathered_nodal_field 20 1
  :: gathered_nodal_field 12 2 :: gathered_nodal_field 11 2
  :: gathered_nodal_field 10 2
  :: gathered_nodal_field 30 2
  :: master_element_call SCV_VOLUME :: nil.

(** A second-order backward-difference step: dt = 1/10 and
    (gamma1, gamma2, gamma3) = (3/2, -2, 1/2). *)
Definition bdf2 : TimeIntegrator :=
  MkTimeIntegrator (of_ratio 1 10) (of_ratio 3 2) (of_ratio (-2) 1)
    (of_ratio 1 2).

(** A first-order step: dt = 1/10 and (gamma1, gamma2, gamma3) = (1, -1, 0). *)
Definition bdf1 : TimeIntegrator :=
  MkTimeIntegrator (of_ratio 1 10) (of_ratio 1 1) (of_ratio (-1) 1)
    (of_ratio 0 1).

Definition tri3_kernel : Kernel := setup bdf2 tri3_new.
Definition tri3_kernel_bdf1 : Kernel := setup bdf1 tri3_new.

(** A step with (gamma1, gamma2, gamma3) = (1, 0, 0) and dt = 1/8. *)
Definition implicit_only : TimeIntegrator :=
  MkTimeIntegrator (of_ratio 1 8) (of_ratio 1 1) (of_ratio 0 1)
    (of_ratio 0 1).

(** Density 1, velocity (1, 0) and no pressure gradient, at every node and
    time level; volume measures 1/6 at each integration point. *)
Definition tri3_views_unit : ScratchViews :=
  MkScratchViews
    (fun _ _ => of_ratio 1 1)
    (fun h ic j =>
       if Nat.eqb h 30 then of_ratio 0 1
       else if Nat.eqb j 0 then of_ratio 1 1 else of_ratio 0 1)
    (fun _ => of_ratio 1 6).

(** Gathered values that vary with the field, the node and the component. *)
Definition tri3_views : ScratchViews :=
  MkScratchViews
    (fun h ic => of_ratio (Z.of_nat (h + ic)) 8)
    (fun h ic j => of_ratio (Z.of_nat (h + 2 * ic + j)) 16)
    (fun ip => of_ratio (Z.of_nat (ip + 1)) 6).

(** The same, with other coordinates. *)
Definition tri3_views_moved : ScratchViews :=
  MkScratchViews
    (get_scratch_view_1D tri3_views)
    (fun h ic j =>
       if Nat.eqb h 40 then of_ratio (Z.of_nat (7 * ic + j)) 1
       else get_scratch_view_2D tri3_views h ic j)
    (scv_volume tri3_views).

(** The same, with another history: the gathered values of the n-1 velocity
    (handle 12) replaced. *)
Definition tri3_views_history : ScratchViews :=
  MkScratchViews
    (get_scratch_view_1D tri3_views)
    (fun h ic j =>
       if Nat.eqb h 12 then of_ratio (Z.of_nat (5 * ic + 3 * j)) 1
       else get_scratch_view_2D tri3_views h ic j)
    (scv_volume tri3_views).

(** Uniform density 2 and velocity (3, -1) at every node and time level,
    with the pressure gradient of [tri3_views]. *)
Definition tri3_views_uniform : ScratchViews :=
  MkScratchViews
    (fun _ _ => of_ratio 2 1)
    (fun h ic j =>
       if Nat.eqb h 30 then get_scratch_view_2D tri3_views h ic j
       else if Nat.eqb j 0 then of_ratio 3 1 else of_ratio (-1) 1)
    (scv_volume tri3_views).

(** The kernel the constructor builds on [tri3_mesh] with lumped mass, and
    that kernel after a second-order step is bound. *)
Definition tri3_new_lumped : Kernel :=
  MkKernel true (fun ip => ip) 12 11 10 21 21 20 30 40
    dzero dzero dzero dzero
    (fun _ => dzero) (fun _ => dzero) (fun _ => dzero) (fun _ => dzero)
    (shifted_shape_fcn tri3_scv).

Definition tri3_kernel_lumped : Kernel := setup bdf2 tri3_new_lumped.

(** The same mesh with two states for the velocity and for the density. *)
Definition tri3_mesh_two_state : MetaData :=
  MkMetaData
    (fun name =>
       if String.eqb name "velocity" then
         Some (MkField 10 2
                 (fun s => match s with
                           | StateNP1 => 10 | StateN => 11 | StateNM1 => 12
                           end))
       else get_field tri3_mesh name).

(** The kernel the constructor builds on [tri3_mesh_two_state]. *)
Definition tri3_new_two_state : Kernel :=
  MkKernel false (fun ip => ip) 11 11 10 21 21 20 30 40
    dzero dzero dzero dzero
    (fun _ => dzero) (fun _ => dzero) (fun _ => dzero) (fun _ => dzero)
    (shape_fcn tri3_scv).

(** [tri3_views] with 1/4 added to component 0 of the gathered n+1 velocity
    (handle 10) of local node 1. *)
Definition tri3_views_perturbed : ScratchViews :=
  MkScratchViews
    (get_scratch_view_1D tri3_views)
    (fun h ic j =>
       if Nat.eqb h 10 && Nat.eqb ic 1 && Nat.eqb j 0
       then dadd (get_scratch_view_2D tri3_views h ic j) (of_ratio 1 4)
       else get_scratch_view_2D tri3_views h ic j)
    (scv_volume tri3_views).

(** [tri3_views] with other velocities and another pressure gradient: only
    the densities and the volume measures are kept. *)
Definition tri3_views_other_flow : ScratchViews :=
  MkScratchViews
    (get_scratch_view_1D tri3_views)
    (fun h ic j => of_ratio (Z.of_nat (3 * h + ic + 5 * j)) 7)
    (scv_volume tri3_views).

(** The same mesh with three states for the velocity and for the
    density, and the kernel the constructor builds on it. *)
Definition tri3_mesh_three_state : MetaData :=
  MkMetaData
    (fun name =>
       if String.eqb name "density" then
         Some (MkField 20 3
                 (fun s => match s with
                           | StateNP1 => 20 | StateN => 21 | StateNM1 => 22
                           end))
       else get_field tri3_mesh name).

Definition tri3_new_three_state : Kernel :=
  MkKernel false (fun ip => ip) 12 11 10 22 21 20 30 40
    dzero dzero dzero dzero
    (fun _ => dzero) (fun _ => dzero) (fun _ => dzero) (fun _ => dzero)
    (shape_fcn tri3_scv).


(** Density 1, velocity (1/3, 0) and no pressure gradient, at every node
    and time level; volume measures 1/6. *)
Definition tri3_views_third : ScratchViews :=
  MkScratchViews
    (fun _ _ => of_ratio 1 1)
    (fun h ic j =>
       if Nat.eqb h 30 then of_ratio 0 1
       else if Nat.eqb j 0 then of_ratio 1 3 else of_ratio 0 1)
    (fun _ => of_ratio 1 6).



End Tri3.


(** * Properties *)

Unset Implicit Arguments.

(** ** Loops *)

Lemma for_loop_ext {St : Type} (n : nat) (f g : nat -> St -> St) (s : St) :
  (forall i a, i < n -> f i a = g i a) ->
  for_loop n f s = for_loop n g s.
Proof.
  induction n as [|n IH]; intros Hfg; simpl.
  - reflexivity.
  - rewrite IH by (intros; apply Hfg; lia). apply Hfg; lia.
Qed.

Lemma for_loop_skip {St : Type} (n : nat) (s : St) :
  for_loop n (fun _ a => a) s = s.
Proof. induction n; simpl; auto. Qed.

(** A loop seen through a projection [p] of its state, under an invariant
    [I] of the state. *)
Lemma for_loop_proj_inv {St A : Type} (I : St -> Prop) (p : St -> A)
    (body : nat -> St -> St) (step : nat -> A -> A) (n : nat) (s : St) :
  (forall i s, i < n -> I s -> I (body i s)) ->
  (forall i s, i < n -> I s -> p (body i s) = step i (p s)) ->
  I s ->
  I (for_loop n body s) /\ p (for_loop n body s) = for_loop n step (p s).
Proof.
  intros HI Hp Hs.
  induction n as [|n IH]; simpl.
  - split; [assumption | reflexivity].
  - destruct IH as [IHI IHp]; try (intros; auto with arith).
    split.
    + apply HI; auto.
    + rewrite Hp by auto. rewrite IHp. reflexivity.
Qed.

Lemma for_loop_proj {St A : Type} (p : St -> A)
    (body : nat -> St -> St) (step : nat -> A -> A) (n : nat) (s : St) :
  (forall i s, i < n -> p (body i s) = step i (p s)) ->
  p (for_loop n body s) = for_loop n step (p s).
Proof.
  intros Hp.
  apply (@for_loop_proj_inv St A (fun _ => True) p body step n s); auto.
Qed.

(** A guarded loop whose guard holds for no index, and for one index at
    most. *)
Lemma for_loop_none {A : Type} (n : nat) (c : nat -> bool)
    (g : nat -> A -> A) (a : A) :
  (forall j, j < n -> c j = false) ->
  for_loop n (fun j acc => if c j then g j acc else acc) a = a.
Proof.
  induction n as [|n IH]; intros Hc; simpl.
  - reflexivity.
  - rewrite Hc by lia. apply IH. intros; apply Hc; lia.
Qed.

Lemma for_loop_unique {A : Type} (n : nat) (c : nat -> bool)
    (g : nat -> A -> A) (a : A) (j0 : nat) :
  (forall j, j < n -> c j = true -> j = j0) ->
  for_loop n (fun j acc => if c j then g j acc else acc) a
  = if (j0 <? n) && c j0 then g j0 a else a.
Proof.
  induction n as [|n IH]; intros Hc; simpl.
  - reflexivity.
  - destruct (c n) eqn:En.
    + assert (n = j0) by (apply Hc; auto). subst j0.
      rewrite for_loop_none.
      * rewrite En. replace (n <? S n) with true; [reflexivity|].
        symmetry; apply Nat.ltb_lt; lia.
      * intros j Hj. destruct (c j) eqn:Ej; [|reflexivity].
        assert (j = n) by (apply Hc; auto). lia.
    + rewrite IH by (intros; apply Hc; auto).
      destruct (Nat.eq_dec j0 n) as [->|Hne].
      * rewrite En, !andb_false_r. reflexivity.
      * replace (j0 <? S n) with (j0 <? n); [reflexivity|].
        destruct (j0 <? n) eqn:E1; symmetry.
        -- apply Nat.ltb_lt in E1. apply Nat.ltb_lt. lia.
        -- apply Nat.ltb_ge in E1. apply Nat.ltb_ge. lia.
Qed.

(** A loop that adds the elements of a list per index adds the
    concatenation of the lists. *)
Lemma for_loop_fold_left {A B : Type} (op : A -> B -> A) (n : nat)
    (l : nat -> list B) (a : A) :
  for_loop n (fun j acc => fold_left op (l j) acc) a
  = fold_left op (flat_map l (seq 0 n)) a.
Proof.
  induction n as [|n IH].
  - reflexivity.
  - rewrite seq_S, flat_map_app, fold_left_app, <- IH. simpl.
    rewrite app_nil_r. reflexivity.
Qed.

Lemma for_loop_at {A : Type} (n : nat) (g : nat -> A -> A) (a : A) (j : nat) :
  for_loop n (fun j' acc => if Nat.eqb j j' then g j' acc else acc) a
  = if j <? n then g j a else a.
Proof.
  rewrite (for_loop_unique n (fun j' => Nat.eqb j j') g a j).
  - rewrite Nat.eqb_refl, andb_true_r. reflexivity.
  - intros j' _ E. apply Nat.eqb_eq in E. auto.
Qed.

(** ** The phases of one integration point *)

Section KernelFacts.

Context {D : Type} {SD : Scalar D}.
Variable AlgTraits : Traits.
Local Open Scope dbl_scope.

Local Abbreviation nDim := (nDim_ AlgTraits).
Local Abbreviation nodesPerElement := (nodesPerElement_ AlgTraits).
Local Abbreviation numScvIp := (numScvIp_ AlgTraits).

Lemma config_inv (k1 k2 : @Kernel D) :
  config k1 = config k2 ->
  ipNodeMap_ k1 = ipNodeMap_ k2
  /\ (velocityNm1_ k1 = velocityNm1_ k2 /\ velocityN_ k1 = velocityN_ k2
      /\ velocityNp1_ k1 = velocityNp1_ k2)
  /\ (densityNm1_ k1 = densityNm1_ k2 /\ densityN_ k1 = densityN_ k2
      /\ densityNp1_ k1 = densityNp1_ k2)
  /\ Gjp_ k1 = Gjp_ k2
  /\ (dt_ k1 = dt_ k2 /\ gamma1_ k1 = gamma1_ k2 /\ gamma2_ k1 = gamma2_ k2
      /\ gamma3_ k1 = gamma3_ k2)
  /\ v_shape_function_ k1 = v_shape_function_ k2.
Proof.
  unfold config. intros H. injection H. intros. repeat split; assumption.
Qed.

Section Phases.

Variables v_densityNm1 v_densityN v_densityNp1 : View1 D.
Variables v_velocityNm1 v_velocityN v_velocityNp1 v_Gpdx : View2 D.

Lemma zero_ip_vectors_config (k : Kernel) :
  config (zero_ip_vectors AlgTraits k) = config k.
Proof.
  unfold zero_ip_vectors.
  rewrite (for_loop_proj config _ (fun _ c => c)).
  - apply for_loop_skip.
  - reflexivity.
Qed.

Ltac member_loop j p g :=
  rewrite (for_loop_proj p _
             (fun j' acc => if Nat.eqb j j' then g j' acc else acc));
  [ rewrite for_loop_at; reflexivity
  | intros j' k' _; simpl; unfold upd1;
    destruct (Nat.eqb_spec j j'); subst; reflexivity ].

Lemma zero_ip_vectors_at (k : Kernel) (j : nat) :
  let k' := zero_ip_vectors AlgTraits k in
  v_uNm1_ k' j = (if j <? nDim then dzero else v_uNm1_ k j)
  /\ v_uN_ k' j = (if j <? nDim then dzero else v_uN_ k j)
  /\ v_uNp1_ k' j = (if j <? nDim then dzero else v_uNp1_ k j)
  /\ v_Gjp_ k' j = (if j <? nDim then dzero else v_Gjp_ k j).
Proof.
  unfold zero_ip_vectors. cbv zeta. repeat split.
  - member_loop j (fun k : @Kernel D => v_uNm1_ k j) (fun (_ : nat) (_ : D) => dzero).
  - member_loop j (fun k : @Kernel D => v_uN_ k j) (fun (_ : nat) (_ : D) => dzero).
  - member_loop j (fun k : @Kernel D => v_uNp1_ k j) (fun (_ : nat) (_ : D) => dzero).
  - member_loop j (fun k : @Kernel D => v_Gjp_ k j) (fun (_ : nat) (_ : D) => dzero).
Qed.

Lemma accumulate_vectors_config (r : D) (ic : nat) (k : Kernel) :
  config (accumulate_vectors AlgTraits v_velocityNm1 v_velocityN
            v_velocityNp1 v_Gpdx r ic k) = config k.
Proof.
  unfold accumulate_vectors.
  rewrite (for_loop_proj config _ (fun _ c => c)).
  - apply for_loop_skip.
  - reflexivity.
Qed.

Lemma accumulate_vectors_at (r : D) (ic : nat) (k : Kernel) (j : nat) :
  let k' := accumulate_vectors AlgTraits v_velocityNm1 v_velocityN
              v_velocityNp1 v_Gpdx r ic k in
  v_uNm1_ k' j
  = (if j <? nDim then v_uNm1_ k j + r * v_velocityNm1 ic j else v_uNm1_ k j)
  /\ v_uN_ k' j
     = (if j <? nDim then v_uN_ k j + r * v_velocityN ic j else v_uN_ k j)
  /\ v_uNp1_ k' j
     = (if j <? nDim then v_uNp1_ k j + r * v_velocityNp1 ic j
        else v_uNp1_ k j)
  /\ v_Gjp_ k' j
     = (if j <? nDim then v_Gjp_ k j + r * v_Gpdx ic j else v_Gjp_ k j).
Proof.
  unfold accumulate_vectors. cbv zeta. repeat split.
  - member_loop j (fun k : @Kernel D => v_uNm1_ k j)
      (fun (j' : nat) (a : D) => a + r * v_velocityNm1 ic j').
  - member_loop j (fun k : @Kernel D => v_uN_ k j)
      (fun (j' : nat) (a : D) => a + r * v_velocityN ic j').
  - member_loop j (fun k : @Kernel D => v_uNp1_ k j)
      (fun (j' : nat) (a : D) => a + r * v_velocityNp1 ic j').
  - member_loop j (fun k : @Kernel D => v_Gjp_ k j)
      (fun (j' : nat) (a : D) => a + r * v_Gpdx ic j').
Qed.

Lemma interpolate_ip_config (ip : nat) (rho0 : Rho) (k : Kernel) :
  config (snd (interpolate_ip AlgTraits v_densityNm1 v_densityN v_densityNp1
                 v_velocityNm1 v_velocityN v_velocityNp1 v_Gpdx ip rho0 k))
  = config k.
Proof.
  unfold interpolate_ip.
  rewrite (for_loop_proj (fun st : @Rho D * @Kernel D => config (snd st)) _
             (fun _ c => c)).
  - apply for_loop_skip.
  - intros ic [rho k'] _. simpl. apply accumulate_vectors_config.
Qed.

(** One pass of the loop over the local nodes keeps the read-only members. *)
Lemma interpolate_body_config (k : Kernel) (ip ic : nat)
    (st : @Rho D * @Kernel D) :
  config (snd st) = config k ->
  config (snd ((fun ic st =>
                  let '(rho, k) := st in
                  let r := v_shape_function_ k ip ic in
                  (MkRho (rhoNm1 rho + r * v_densityNm1 ic)
                     (rhoN rho + r * v_densityN ic)
                     (rhoNp1 rho + r * v_densityNp1 ic),
                   accumulate_vectors AlgTraits v_velocityNm1
                     v_velocityN v_velocityNp1 v_Gpdx r ic k)) ic st))
  = config k.
Proof.
  destruct st as [rho k']. simpl. intros H.
  rewrite accumulate_vectors_config. exact H.
Qed.

Ltac rho_loop k rho0 ip p v :=
  apply (for_loop_proj_inv
           (fun st : @Rho D * @Kernel D => config (snd st) = config k)
           p _ (fun ic acc => acc + v_shape_function_ k ip ic * v ic)
           nodesPerElement (rho0, k)
           (fun i st _ H => interpolate_body_config k ip i st H));
  [ let H := fresh "H" in
    intros ic [rho k'] _ H; apply config_inv in H; simpl in *;
    decompose [and] H; congruence
  | reflexivity ].

(** The scalar sums of lines 133-135. *)
Lemma interpolate_ip_rho (ip : nat) (rho0 : Rho) (k : Kernel) :
  let rho := fst (interpolate_ip AlgTraits v_densityNm1 v_densityN
                    v_densityNp1 v_velocityNm1 v_velocityN v_velocityNp1
                    v_Gpdx ip rho0 k) in
  let w := v_shape_function_ k ip in
  rhoNm1 rho = interp_from w v_densityNm1 nodesPerElement (rhoNm1 rho0)
  /\ rhoN rho = interp_from w v_densityN nodesPerElement (rhoN rho0)
  /\ rhoNp1 rho = interp_from w v_densityNp1 nodesPerElement (rhoNp1 rho0).
Proof.
  unfold interpolate_ip, interp_from. cbv zeta. repeat split.
  - rho_loop k rho0 ip (fun st : @Rho D * @Kernel D => rhoNm1 (fst st)) v_densityNm1.
  - rho_loop k rho0 ip (fun st : @Rho D * @Kernel D => rhoN (fst st)) v_densityN.
  - rho_loop k rho0 ip (fun st : @Rho D * @Kernel D => rhoNp1 (fst st)) v_densityNp1.
Qed.

Ltac vec_loop k rho0 ip j p v :=
  apply (for_loop_proj_inv
           (fun st : @Rho D * @Kernel D => config (snd st) = config k)
           p _
           (fun ic acc =>
              if j <? nDim then acc + v_shape_function_ k ip ic * v ic j
              else acc)
           nodesPerElement (rho0, k)
           (fun i st _ H => interpolate_body_config k ip i st H));
  [ let H := fresh "H" in
    intros ic [rho k'] _ H; apply config_inv in H; simpl in *;
    decompose [and] H;
    match goal with
    | E : v_shape_function_ k' = v_shape_function_ k |- _ => rewrite E
    end;
    apply accumulate_vectors_at
  | reflexivity ].

(** The vector sums of lines 137-140: component [j] of a member vector
    after the loop over the local nodes, from its value before. *)
Lemma interpolate_ip_vec (ip : nat) (rho0 : Rho) (k : Kernel) (j : nat) :
  let k' := snd (interpolate_ip AlgTraits v_densityNm1 v_densityN
                   v_densityNp1 v_velocityNm1 v_velocityN v_velocityNp1
                   v_Gpdx ip rho0 k) in
  let w := v_shape_function_ k ip in
  let sum (v : View2 D) (a : D) :=
    for_loop nodesPerElement
      (fun ic acc => if j <? nDim then acc + w ic * v ic j else acc) a in
  v_uNm1_ k' j = sum v_velocityNm1 (v_uNm1_ k j)
  /\ v_uN_ k' j = sum v_velocityN (v_uN_ k j)
  /\ v_uNp1_ k' j = sum v_velocityNp1 (v_uNp1_ k j)
  /\ v_Gjp_ k' j = sum v_Gpdx (v_Gjp_ k j).
Proof.
  unfold interpolate_ip. cbv zeta. repeat split.
  - vec_loop k rho0 ip j (fun st : @Rho D * @Kernel D => v_uNm1_ (snd st) j)
      v_velocityNm1.
  - vec_loop k rho0 ip j (fun st : @Rho D * @Kernel D => v_uN_ (snd st) j)
      v_velocityN.
  - vec_loop k rho0 ip j (fun st : @Rho D * @Kernel D => v_uNp1_ (snd st) j)
      v_velocityNp1.
  - vec_loop k rho0 ip j (fun st : @Rho D * @Kernel D => v_Gjp_ (snd st) j) v_Gpdx.
Qed.

(** Lines 120-142 together: after the interpolation phase the three local
    densities and, for every j below the dimension, the four member vectors
    hold the interpolated values. *)
Lemma ip_interpolation_spec (ip : nat) (k : Kernel) :
  let res := ip_interpolation AlgTraits v_densityNm1 v_densityN v_densityNp1
               v_velocityNm1 v_velocityN v_velocityNp1 v_Gpdx ip k in
  let w := v_shape_function_ k ip in
  config (snd res) = config k
  /\ (rhoNm1 (fst res) = interpolate AlgTraits w v_densityNm1
      /\ rhoN (fst res) = interpolate AlgTraits w v_densityN
      /\ rhoNp1 (fst res) = interpolate AlgTraits w v_densityNp1)
  /\ (forall j, j < nDim ->
        v_uNm1_ (snd res) j
        = interpolate AlgTraits w (fun ic => v_velocityNm1 ic j)
        /\ v_uN_ (snd res) j
           = interpolate AlgTraits w (fun ic => v_velocityN ic j)
        /\ v_uNp1_ (snd res) j
           = interpolate AlgTraits w (fun ic => v_velocityNp1 ic j)
        /\ v_Gjp_ (snd res) j
           = interpolate AlgTraits w (fun ic => v_Gpdx ic j)).
Proof.
  unfold ip_interpolation. cbv zeta.
  pose proof (zero_ip_vectors_config k) as Hz.
  pose proof (config_inv _ _ Hz) as Hz'.
  assert (Hw : v_shape_function_ (zero_ip_vectors AlgTraits k)
               = v_shape_function_ k) by (decompose [and] Hz'; assumption).
  split; [|split].
  - rewrite interpolate_ip_config. exact Hz.
  - pose proof (interpolate_ip_rho ip (MkRho dzero dzero dzero)
                  (zero_ip_vectors AlgTraits k)) as H.
    cbv zeta in H. rewrite Hw in H. exact H.
  - intros j Hj.
    pose proof (interpolate_ip_vec ip (MkRho dzero dzero dzero)
                  (zero_ip_vectors AlgTraits k) j) as H.
    cbv zeta in H. rewrite Hw in H.
    pose proof (zero_ip_vectors_at k j) as Hz0. cbv zeta in Hz0.
    apply Nat.ltb_lt in Hj. rewrite Hj in H, Hz0.
    destruct Hz0 as (Z1 & Z2 & Z3 & Z4). rewrite Z1, Z2, Z3, Z4 in H.
    exact H.
Qed.

(** Lines 147-153: entry [i] of the residual after the loop over j. *)
Lemma compute_rhs_at (k : Kernel) (rho : Rho) (scV : D) (nnNdim : nat)
    (rhs : View1 D) (i : nat) :
  compute_rhs AlgTraits k rho scV nnNdim rhs i
  = for_loop nDim
      (fun j acc =>
         if Nat.eqb i (nnNdim + j)
         then acc + (- (gamma1_ k * rhoNp1 rho * v_uNp1_ k j
                        + gamma2_ k * rhoN rho * v_uN_ k j
                        + gamma3_ k * rhoNm1 rho * v_uNm1_ k j) * scV / dt_ k
                     - v_Gjp_ k j * scV)
         else acc)
      (rhs i).
Proof.
  unfold compute_rhs.
  apply (for_loop_proj (fun f : View1 D => f i)).
  intros j f _. unfold upd1.
  destruct (Nat.eqb_spec i (nnNdim + j)); subst; reflexivity.
Qed.

(** Lines 156-165: entry [(r, c)] of the Jacobian after the loops over ic
    and j. *)
Lemma compute_lhs_at (k : Kernel) (rho : Rho) (scV : D) (ip nnNdim : nat)
    (lhs : View2 D) (r c : nat) :
  compute_lhs AlgTraits k rho scV ip nnNdim lhs r c
  = for_loop nodesPerElement
      (fun ic acc =>
         for_loop nDim
           (fun j acc =>
              if Nat.eqb r (nnNdim + j) && Nat.eqb c (ic * nDim + j)
              then acc + v_shape_function_ k ip ic * gamma1_ k * rhoNp1 rho
                         * scV / dt_ k
              else acc)
           acc)
      (lhs r c).
Proof.
  unfold compute_lhs.
  apply (for_loop_proj (fun f : View2 D => f r c)).
  intros ic f _. cbv zeta.
  apply (for_loop_proj (fun f : View2 D => f r c)).
  intros j g _. unfold upd2.
  destruct (Nat.eqb_spec r (nnNdim + j)); simpl; [|reflexivity].
  destruct (Nat.eqb_spec c (ic * nDim + j)); subst; reflexivity.
Qed.

End Phases.

(** ** One integration point, and the whole call *)

(** What one pass of the loop over the integration points does to the read-only
    members, to a residual entry and to a Jacobian entry. *)
Lemma execute_ip_spec (sv : ScratchViews) (k : Kernel) (ip : nat) (st : Exec) :
  config (this_ st) = config k ->
  let st' := execute_ip AlgTraits sv k ip st in
  config (this_ st') = config k
  /\ (forall i,
        rhs_ st' i
        = for_loop nDim
            (fun j acc =>
               if Nat.eqb i (nearestNode k ip * nDim + j)
               then acc + rhs_increment AlgTraits sv k ip j else acc)
            (rhs_ st i))
  /\ (forall r c,
        lhs_ st' r c
        = for_loop nodesPerElement
            (fun ic acc =>
               for_loop nDim
                 (fun j acc =>
                    if Nat.eqb r (nearestNode k ip * nDim + j)
                       && Nat.eqb c (ic * nDim + j)
                    then acc + lhs_increment AlgTraits sv k ip ic else acc)
                 acc)
            (lhs_ st r c)).
Proof.
  intros Hc. cbv zeta. unfold execute_ip, ip_body.
  pose proof (ip_interpolation_spec
                (get_scratch_view_1D sv (densityNm1_ k))
                (get_scratch_view_1D sv (densityN_ k))
                (get_scratch_view_1D sv (densityNp1_ k))
                (get_scratch_view_2D sv (velocityNm1_ k))
                (get_scratch_view_2D sv (velocityN_ k))
                (get_scratch_view_2D sv (velocityNp1_ k))
                (get_scratch_view_2D sv (Gjp_ k))
                ip (this_ st)) as H.
  cbv zeta in H.
  destruct (ip_interpolation _ _ _ _ _ _ _ _ _ (this_ st)) as [rho k'].
  simpl in H. destruct H as (Hk' & (R1 & R2 & R3) & Hv).
  rewrite Hc in Hk'.
  pose proof (config_inv _ _ Hc) as Hs. pose proof (config_inv _ _ Hk') as Hs'.
  destruct Hs as (Sm & _ & _ & _ & _ & Sw).
  destruct Hs' as (_ & _ & _ & _ & (Sdt & Sg1 & Sg2 & Sg3) & Sw').
  rewrite Sw in R1, R2, R3, Hv. simpl.
  split; [exact Hk' | split].
  - intros i. rewrite compute_rhs_at. apply for_loop_ext. intros j a Hj.
    unfold nearestNode. rewrite Sm.
    destruct (Nat.eqb i (ipNodeMap_ k ip * nDim + j)); [|reflexivity].
    destruct (Hv j Hj) as (V1 & V2 & V3 & V4).
    rewrite R1, R2, R3, V1, V2, V3, V4, Sdt, Sg1, Sg2, Sg3. reflexivity.
  - intros r c. rewrite compute_lhs_at. apply for_loop_ext. intros ic a Hic.
    apply for_loop_ext. intros j b Hj.
    unfold nearestNode. rewrite Sm.
    destruct (_ && _); [|reflexivity].
    rewrite R3, Sdt, Sg1, Sw'. reflexivity.
Qed.

(** [execute] keeps the read-only members of the kernel. *)
Lemma execute_config (lhs : View2 D) (rhs : View1 D) (sv : ScratchViews)
    (k : Kernel) :
  config (this_ (execute AlgTraits lhs rhs sv k)) = config k.
Proof.
  unfold execute.
  apply (for_loop_proj_inv (fun st => config (this_ st) = config k)
           (fun _ => tt) _ (fun _ u => u) numScvIp (MkExec k lhs rhs)).
  - intros ip st _ H. apply (execute_ip_spec sv k ip st H).
  - reflexivity.
  - reflexivity.
Qed.

(** Closed form of the residual after [execute]. *)
Lemma execute_rhs (lhs : View2 D) (rhs : View1 D) (sv : ScratchViews)
    (k : Kernel) (i : nat) :
  rhs_ (execute AlgTraits lhs rhs sv k) i = rhs_after AlgTraits sv k i (rhs i).
Proof.
  unfold execute, rhs_after.
  apply (for_loop_proj_inv (fun st => config (this_ st) = config k)
           (fun st => rhs_ st i) _ _ numScvIp (MkExec k lhs rhs)).
  - intros ip st _ H. apply (execute_ip_spec sv k ip st H).
  - intros ip st _ H. apply (execute_ip_spec sv k ip st H).
  - reflexivity.
Qed.

(** Closed form of the Jacobian after [execute]. *)
Lemma execute_lhs (lhs : View2 D) (rhs : View1 D) (sv : ScratchViews)
    (k : Kernel) (r c : nat) :
  lhs_ (execute AlgTraits lhs rhs sv k) r c
  = lhs_after AlgTraits sv k r c (lhs r c).
Proof.
  unfold execute, lhs_after.
  apply (for_loop_proj_inv (fun st => config (this_ st) = config k)
           (fun st => lhs_ st r c) _ _ numScvIp (MkExec k lhs rhs)).
  - intros ip st _ H. apply (execute_ip_spec sv k ip st H).
  - intros ip st _ H. apply (execute_ip_spec sv k ip st H).
  - reflexivity.
Qed.

(** ** Entries seen by node and dimension *)

(** The flattening (node, dimension) -> node * nDim + dimension is
    one-to-one on dimensions below nDim. *)
Lemma node_index_inj (d n m j j' : nat) :
  j < d -> j' < d -> (n * d + j = m * d + j')%nat -> n = m /\ j = j'.
Proof.
  intros Hj Hj' E.
  destruct (Nat.lt_trichotomy n m) as [L | [-> | L]]; [nia | lia | nia].
Qed.

Lemma rhs_after_node (sv : ScratchViews) (k : Kernel) (n j : nat) (a : D) :
  j < nDim ->
  rhs_after AlgTraits sv k (n * nDim + j) a
  = for_loop numScvIp
      (fun ip acc =>
         if owns k n ip then acc + rhs_increment AlgTraits sv k ip j
         else acc)
      a.
Proof.
  intros Hj. unfold rhs_after, owns, nearestNode.
  apply for_loop_ext. intros ip acc _.
  rewrite (for_loop_unique nDim
             (fun j' => Nat.eqb (n * nDim + j) (ipNodeMap_ k ip * nDim + j'))
             (fun j' acc => acc + rhs_increment AlgTraits sv k ip j') acc j).
  - apply Nat.ltb_lt in Hj. rewrite Hj. simpl.
    destruct (Nat.eqb_spec (ipNodeMap_ k ip) n) as [->|Hne].
    + rewrite Nat.eqb_refl. reflexivity.
    + destruct (Nat.eqb_spec (n * nDim + j) (ipNodeMap_ k ip * nDim + j));
        [|reflexivity].
      apply Nat.ltb_lt in Hj. exfalso. apply Hne. nia.
  - intros j' Hj' E. apply Nat.eqb_eq in E.
    destruct (node_index_inj nDim n (ipNodeMap_ k ip) j j' Hj Hj' E). auto.
Qed.

Lemma rhs_after_untouched (sv : ScratchViews) (k : Kernel) (i : nat) (a : D) :
  (forall ip j, ip < numScvIp -> j < nDim ->
     i <> (nearestNode k ip * nDim + j)%nat) ->
  rhs_after AlgTraits sv k i a = a.
Proof.
  intros H. unfold rhs_after.
  rewrite (for_loop_ext numScvIp _ (fun _ acc => acc)).
  - apply for_loop_skip.
  - intros ip acc Hip.
    apply (for_loop_none nDim
             (fun j => Nat.eqb i (nearestNode k ip * nDim + j))
             (fun j acc => acc + rhs_increment AlgTraits sv k ip j)).
    intros j Hj. apply Nat.eqb_neq. auto.
Qed.

Lemma lhs_after_node (sv : ScratchViews) (k : Kernel) (n ic j : nat) (a : D) :
  ic < nodesPerElement -> j < nDim ->
  lhs_after AlgTraits sv k (n * nDim + j) (ic * nDim + j) a
  = for_loop numScvIp
      (fun ip acc =>
         if owns k n ip then acc + lhs_increment AlgTraits sv k ip ic
         else acc)
      a.
Proof.
  intros Hic Hj. unfold lhs_after, owns, nearestNode.
  apply for_loop_ext. intros ip acc _.
  rewrite (for_loop_ext nodesPerElement _
             (fun ic' acc =>
                if Nat.eqb (n * nDim + j) (ipNodeMap_ k ip * nDim + j)
                   && Nat.eqb ic ic'
                then acc + lhs_increment AlgTraits sv k ip ic' else acc)).
  - rewrite (for_loop_unique nodesPerElement
               (fun ic' =>
                  Nat.eqb (n * nDim + j) (ipNodeMap_ k ip * nDim + j)
                  && Nat.eqb ic ic')
               (fun ic' acc => acc + lhs_increment AlgTraits sv k ip ic')
               acc ic).
    + apply Nat.ltb_lt in Hic. rewrite Hic, Nat.eqb_refl, andb_true_r. simpl.
      destruct (Nat.eqb_spec (ipNodeMap_ k ip) n) as [->|Hne].
      * rewrite Nat.eqb_refl. reflexivity.
      * destruct (Nat.eqb_spec (n * nDim + j) (ipNodeMap_ k ip * nDim + j));
          [|reflexivity].
        exfalso. apply Hne. nia.
    + intros ic' _ E. apply andb_prop in E. destruct E as [_ E].
      apply Nat.eqb_eq in E. auto.
  - intros ic' b Hic'.
    rewrite (for_loop_unique nDim
               (fun j' =>
                  Nat.eqb (n * nDim + j) (ipNodeMap_ k ip * nDim + j')
                  && Nat.eqb (ic * nDim + j) (ic' * nDim + j'))
               (fun _ acc => acc + lhs_increment AlgTraits sv k ip ic') b j).
    + apply Nat.ltb_lt in Hj. rewrite Hj. simpl.
      destruct (Nat.eqb_spec (n * nDim + j) (ipNodeMap_ k ip * nDim + j));
        simpl; [|reflexivity].
      apply Nat.ltb_lt in Hj.
      destruct (Nat.eqb_spec ic ic') as [->|Hne].
      * rewrite Nat.eqb_refl. reflexivity.
      * destruct (Nat.eqb_spec (ic * nDim + j) (ic' * nDim + j));
          [|reflexivity].
        exfalso. apply Hne. nia.
    + intros j' Hj' E. apply andb_prop in E. destruct E as [E _].
      apply Nat.eqb_eq in E.
      destruct (node_index_inj nDim n (ipNodeMap_ k ip) j j' Hj Hj' E). auto.
Qed.

Lemma lhs_after_untouched (sv : ScratchViews) (k : Kernel) (r c : nat)
    (a : D) :
  (forall ip ic j, ip < numScvIp -> ic < nodesPerElement -> j < nDim ->
     ~ (r = (nearestNode k ip * nDim + j)%nat /\ c = (ic * nDim + j)%nat)) ->
  lhs_after AlgTraits sv k r c a = a.
Proof.
  intros H. unfold lhs_after.
  rewrite (for_loop_ext numScvIp _ (fun _ acc => acc)).
  - apply for_loop_skip.
  - intros ip acc Hip.
    rewrite (for_loop_ext nodesPerElement _ (fun _ acc => acc)).
    + apply for_loop_skip.
    + intros ic b Hic.
      apply (for_loop_none nDim
               (fun j => Nat.eqb r (nearestNode k ip * nDim + j)
                         && Nat.eqb c (ic * nDim + j))
               (fun j acc => acc + lhs_increment AlgTraits sv k ip ic)).
      intros j Hj. apply andb_false_iff.
      destruct (Nat.eqb_spec r (nearestNode k ip * nDim + j)); [|auto].
      destruct (Nat.eqb_spec c (ic * nDim + j)); [|auto].
      exfalso. apply (H ip ic j); auto.
Qed.

(** The closed forms as the list of increments, added left to right. *)
Lemma rhs_after_increments (sv : ScratchViews) (k : Kernel) (i : nat) (a : D) :
  rhs_after AlgTraits sv k i a
  = fold_left dadd (rhs_increments AlgTraits sv k i) a.
Proof.
  unfold rhs_after, rhs_increments.
  rewrite <- for_loop_fold_left. apply for_loop_ext. intros ip acc _.
  rewrite <- for_loop_fold_left. apply for_loop_ext. intros j b _.
  destruct (Nat.eqb _ _); reflexivity.
Qed.

Lemma lhs_after_increments (sv : ScratchViews) (k : Kernel) (r c : nat)
    (a : D) :
  lhs_after AlgTraits sv k r c a
  = fold_left dadd (lhs_increments AlgTraits sv k r c) a.
Proof.
  unfold lhs_after, lhs_increments.
  rewrite <- for_loop_fold_left. apply for_loop_ext. intros ip acc _.
  rewrite <- for_loop_fold_left. apply for_loop_ext. intros ic b _.
  rewrite <- for_loop_fold_left. apply for_loop_ext. intros j b' _.
  destruct (_ && _); reflexivity.
Qed.

(** The closed forms read the kernel through [config] only. *)
Lemma rhs_after_config (sv : ScratchViews) (k1 k2 : Kernel) (i : nat) (a : D) :
  config k1 = config k2 ->
  rhs_after AlgTraits sv k1 i a = rhs_after AlgTraits sv k2 i a.
Proof.
  destruct k1, k2. unfold config. simpl. intros H.
  injection H. intros. subst. reflexivity.
Qed.

Lemma lhs_after_config (sv : ScratchViews) (k1 k2 : Kernel) (r c : nat)
    (a : D) :
  config k1 = config k2 ->
  lhs_after AlgTraits sv k1 r c a = lhs_after AlgTraits sv k2 r c a.
Proof.
  destruct k1, k2. unfold config. simpl. intros H.
  injection H. intros. subst. reflexivity.
Qed.

(** The closed forms read the scratch context through the increments
    only. *)
Lemma rhs_after_ext (sv1 sv2 : ScratchViews) (k : Kernel) (i : nat) (a : D) :
  (forall ip j, ip < numScvIp -> j < nDim ->
     rhs_increment AlgTraits sv1 k ip j = rhs_increment AlgTraits sv2 k ip j) ->
  rhs_after AlgTraits sv1 k i a = rhs_after AlgTraits sv2 k i a.
Proof.
  intros H. unfold rhs_after.
  apply for_loop_ext. intros ip acc Hip.
  apply for_loop_ext. intros j b Hj.
  rewrite (H ip j Hip Hj). reflexivity.
Qed.

Lemma lhs_after_ext (sv1 sv2 : ScratchViews) (k : Kernel) (r c : nat)
    (a : D) :
  (forall ip ic, ip < numScvIp -> ic < nodesPerElement ->
     lhs_increment AlgTraits sv1 k ip ic = lhs_increment AlgTraits sv2 k ip ic) ->
  lhs_after AlgTraits sv1 k r c a = lhs_after AlgTraits sv2 k r c a.
Proof.
  intros H. unfold lhs_after.
  apply for_loop_ext. intros ip acc Hip.
  apply for_loop_ext. intros ic b Hic.
  apply for_loop_ext. intros j b' Hj.
  rewrite (H ip ic Hip Hic). reflexivity.
Qed.

(** Interpolation reads the nodal values of the local nodes only. *)
Lemma interpolate_ext (w v v' : View1 D) :
  (forall ic, ic < nodesPerElement -> v ic = v' ic) ->
  interpolate AlgTraits w v = interpolate AlgTraits w v'.
Proof.
  intros H. unfold interpolate, interp_from.
  apply for_loop_ext. intros ic a Hic. rewrite (H ic Hic). reflexivity.
Qed.

(** The increments read the scratch context through the gathered values of
    the seven field handles of the kernel and the volume measures. *)
Lemma rhs_increment_ext (sv1 sv2 : ScratchViews) (k : Kernel) (ip j : nat) :
  same_nodal_1D AlgTraits (get_scratch_view_1D sv1 (densityNm1_ k))
    (get_scratch_view_1D sv2 (densityNm1_ k)) ->
  same_nodal_1D AlgTraits (get_scratch_view_1D sv1 (densityN_ k))
    (get_scratch_view_1D sv2 (densityN_ k)) ->
  same_nodal_1D AlgTraits (get_scratch_view_1D sv1 (densityNp1_ k))
    (get_scratch_view_1D sv2 (densityNp1_ k)) ->
  same_nodal_2D AlgTraits (get_scratch_view_2D sv1 (velocityNm1_ k))
    (get_scratch_view_2D sv2 (velocityNm1_ k)) ->
  same_nodal_2D AlgTraits (get_scratch_view_2D sv1 (velocityN_ k))
    (get_scratch_view_2D sv2 (velocityN_ k)) ->
  same_nodal_2D AlgTraits (get_scratch_view_2D sv1 (velocityNp1_ k))
    (get_scratch_view_2D sv2 (velocityNp1_ k)) ->
  same_nodal_2D AlgTraits (get_scratch_view_2D sv1 (Gjp_ k))
    (get_scratch_view_2D sv2 (Gjp_ k)) ->
  same_scv_volume AlgTraits sv1 sv2 ->
  ip < numScvIp -> j < nDim ->
  rhs_increment AlgTraits sv1 k ip j = rhs_increment AlgTraits sv2 k ip j.
Proof.
  intros D1 D2 D3 V1 V2 V3 V4 Hs Hip Hj.
  unfold rhs_increment, rho_nm1, rho_n, rho_np1, u_nm1, u_n, u_np1, Gjp, scV.
  rewrite (Hs ip Hip).
  rewrite (interpolate_ext (weight k ip) _ _ D1),
          (interpolate_ext (weight k ip) _ _ D2),
          (interpolate_ext (weight k ip) _ _ D3).
  rewrite (interpolate_ext (weight k ip) _ _ (fun ic Hic => V1 ic j Hic Hj)),
          (interpolate_ext (weight k ip) _ _ (fun ic Hic => V2 ic j Hic Hj)),
          (interpolate_ext (weight k ip) _ _ (fun ic Hic => V3 ic j Hic Hj)),
          (interpolate_ext (weight k ip) _ _ (fun ic Hic => V4 ic j Hic Hj)).
  reflexivity.
Qed.

Lemma lhs_increment_ext (sv1 sv2 : ScratchViews) (k : Kernel) (ip ic : nat) :
  same_nodal_1D AlgTraits (get_scratch_view_1D sv1 (densityNp1_ k))
    (get_scratch_view_1D sv2 (densityNp1_ k)) ->
  same_scv_volume AlgTraits sv1 sv2 ->
  ip < numScvIp ->
  lhs_increment AlgTraits sv1 k ip ic = lhs_increment AlgTraits sv2 k ip ic.
Proof.
  intros D3 Hs Hip. unfold lhs_increment, rho_np1, scV.
  rewrite (Hs ip Hip), (interpolate_ext (weight k ip) _ _ D3). reflexivity.
Qed.

End KernelFacts.

(** * The claims of the specification *)

(** ** Claims that hold for any scalar arithmetic *)

Section Claims.

Context {D : Type} {SD : Scalar D}.
Variable AlgTraits : Traits.
Local Open Scope dbl_scope.

Local Abbreviation nDim := (nDim_ AlgTraits).
Local Abbreviation nodesPerElement := (nodesPerElement_ AlgTraits).
Local Abbreviation numScvIp := (numScvIp_ AlgTraits).

(** C2.  After [execute], the Jacobian entry at row (n, j), column (ic, j)
    holds its initial content with, for each integration point ip owned by
    node n in ascending order, weight(ip, ic) * gamma1 * rho_np1(ip) *
    scV(ip) / dt added to it, where rho_np1(ip) is the interpolated n+1
    density; and every entry whose row dimension j differs from its column
    dimension j' holds its initial content. *)
Theorem jacobian_block_diagonal (lhs : View2 D) (rhs : View1 D)
    (sv : ScratchViews) (k : Kernel) :
  let J := lhs_ (execute AlgTraits lhs rhs sv k) in
  (forall n ic j, ic < nodesPerElement -> j < nDim ->
     J (n * nDim + j)%nat (ic * nDim + j)%nat
     = for_loop numScvIp
         (fun ip acc =>
            if Nat.eqb (nearestNode k ip) n
            then acc + weight k ip ic * gamma1_ k * rho_np1 AlgTraits sv k ip
                       * scV sv ip / dt_ k
            else acc)
         (lhs (n * nDim + j)%nat (ic * nDim + j)%nat))
  /\ (forall n m j j', j < nDim -> j' < nDim -> j <> j' ->
        J (n * nDim + j)%nat (m * nDim + j')%nat
        = lhs (n * nDim + j)%nat (m * nDim + j')%nat).
Proof.
  cbv zeta. split.
  - intros n ic j Hic Hj. rewrite execute_lhs.
    apply (lhs_after_node AlgTraits sv k n ic j _ Hic Hj).
  - intros n m j j' Hj Hj' Hne. rewrite execute_lhs.
    apply lhs_after_untouched.
    intros ip ic jj _ _ Hjj [E1 E2].
    destruct (node_index_inj nDim _ _ _ _ Hj Hjj E1) as [_ <-].
    destruct (node_index_inj nDim _ _ _ _ Hj' Hjj E2) as [_ E]. auto.
Qed.

(** C6.  For every initial content of the two buffers, each residual entry
    and each Jacobian entry ends as its initial content with the kernel's
    increments added to it one after the other; the increments are computed
    from the scratch context and the kernel alone, not from the buffers, and
    an entry that receives no increment keeps its content. *)
Theorem execute_accumulates (lhs : View2 D) (rhs : View1 D)
    (sv : ScratchViews) (k : Kernel) (i r c : nat) :
  rhs_ (execute AlgTraits lhs rhs sv k) i
  = fold_left dadd (rhs_increments AlgTraits sv k i) (rhs i)
  /\ lhs_ (execute AlgTraits lhs rhs sv k) r c
     = fold_left dadd (lhs_increments AlgTraits sv k r c) (lhs r c).
Proof.
  split.
  - rewrite execute_rhs. apply rhs_after_increments.
  - rewrite execute_lhs. apply lhs_after_increments.
Qed.

(** C7.  Invoking [execute] a second time, on the kernel object as the
    first invocation left it, with the same scratch context and with the
    buffers zeroed again, yields the same residual and Jacobian contents
    as the first invocation. *)
Theorem execute_twice (sv : ScratchViews) (k : Kernel) (i r c : nat) :
  let first := execute AlgTraits zero_lhs zero_rhs sv k in
  let second := execute AlgTraits zero_lhs zero_rhs sv (this_ first) in
  rhs_ second i = rhs_ first i /\ lhs_ second r c = lhs_ first r c.
Proof.
  cbv zeta.
  pose proof (execute_config AlgTraits zero_lhs zero_rhs sv k) as Hc.
  split.
  - rewrite !execute_rhs. apply rhs_after_config. exact Hc.
  - rewrite !execute_lhs. apply lhs_after_config. exact Hc.
Qed.

(** C8.  [setup] stores the step size and the three gammas of the time
    integrator in the kernel, leaves every other member as it was, and
    calling it again with the same integrator values changes nothing. *)
Theorem setup_binds_time_step (timeIntegrator : TimeIntegrator)
    (k : @Kernel D) :
  let k' := setup timeIntegrator k in
  (dt_ k' = get_time_step timeIntegrator
   /\ gamma1_ k' = get_gamma1 timeIntegrator
   /\ gamma2_ k' = get_gamma2 timeIntegrator
   /\ gamma3_ k' = get_gamma3 timeIntegrator)
  /\ (lumpedMass_ k' = lumpedMass_ k
      /\ ipNodeMap_ k' = ipNodeMap_ k
      /\ velocityNm1_ k' = velocityNm1_ k
      /\ velocityN_ k' = velocityN_ k
      /\ velocityNp1_ k' = velocityNp1_ k
      /\ densityNm1_ k' = densityNm1_ k
      /\ densityN_ k' = densityN_ k
      /\ densityNp1_ k' = densityNp1_ k
      /\ Gjp_ k' = Gjp_ k
      /\ coordinates_ k' = coordinates_ k
      /\ v_uNm1_ k' = v_uNm1_ k
      /\ v_uN_ k' = v_uN_ k
      /\ v_uNp1_ k' = v_uNp1_ k
      /\ v_Gjp_ k' = v_Gjp_ k
      /\ v_shape_function_ k' = v_shape_function_ k)
  /\ setup timeIntegrator k' = k'.
Proof.
  cbv zeta. repeat split.
Qed.

(** C4.  At configuration, a velocity field with two states makes the n-1
    velocity handle of the kernel the n handle, whatever the density field
    has, and a density field with two states makes the n-1 density handle
    the n handle, whatever the velocity field has; for such a field the
    value [execute] interpolates for state n-1 at any integration point is
    the value it interpolates for state n. *)
Theorem two_state_aliasing (meSCV : MasterElement) (metaData : MetaData)
    (solnOpts : SolutionOptions) (dataPreReqs reqs' : ElemDataRequests)
    (lumpedMass : bool) (k : Kernel) (velocity density : Field) :
  MomentumMassElemKernel AlgTraits meSCV metaData solnOpts dataPreReqs
    lumpedMass = Some (k, reqs') ->
  get_field metaData "velocity" = Some velocity ->
  get_field metaData "density" = Some density ->
  (number_of_states velocity = 2 ->
     velocityNm1_ k = velocityN_ k
     /\ forall (sv : ScratchViews) (this : Kernel) (ip j : nat),
          j < nDim ->
          let k' := snd (execute_interpolation AlgTraits sv k ip this) in
          v_uNm1_ k' j = v_uN_ k' j)
  /\ (number_of_states density = 2 ->
        densityNm1_ k = densityN_ k
        /\ forall (sv : ScratchViews) (this : Kernel) (ip : nat),
             let rho := fst (execute_interpolation AlgTraits sv k ip this) in
             rhoNm1 rho = rhoN rho).
Proof.
  intros Hk Hv Hd. unfold MomentumMassElemKernel in Hk.
  rewrite Hv, Hd in Hk.
  destruct (get_field metaData "dpdx") as [Gp|]; [|discriminate].
  destruct (get_field metaData (get_coordinates_name solnOpts)) as [co|];
    [|discriminate].
  injection Hk as Hk _. split.
  - intros H2. rewrite H2 in Hk. simpl in Hk.
    assert (Ha : velocityNm1_ k = velocityN_ k) by (subst k; reflexivity).
    split; [exact Ha|].
    intros sv this ip j Hj. cbv zeta. unfold execute_interpolation.
    rewrite Ha.
    match goal with
    | |- context [ip_interpolation ?T ?a ?b ?c ?d ?e ?f ?g ip this] =>
        pose proof (ip_interpolation_spec T a b c d e f g ip this) as S
    end.
    cbv zeta in S. destruct S as (_ & _ & S).
    destruct (S j Hj) as (S1 & S2 & _). rewrite S1, S2. reflexivity.
  - intros H2. rewrite H2 in Hk. simpl in Hk.
    assert (Ha : densityNm1_ k = densityN_ k).
    { subst k. simpl. destruct (number_of_states velocity =? 2); reflexivity. }
    split; [exact Ha|].
    intros sv this ip. cbv zeta. unfold execute_interpolation.
    rewrite Ha.
    match goal with
    | |- context [ip_interpolation ?T ?a ?b ?c ?d ?e ?f ?g ip this] =>
        pose proof (ip_interpolation_spec T a b c d e f g ip this) as S
    end.
    cbv zeta in S. destruct S as (_ & (S1 & S2 & _) & _).
    rewrite S1, S2. reflexivity.
Qed.

(** C9.  The constructor registers the coordinate field with the data
    requests, and [execute] never reads it: when the coordinate handle is
    none of the velocity and pressure-gradient handles, two scratch contexts
    that hold the same gathered values for every field but the coordinates,
    and the same volume measures, give the same residual and Jacobian. *)
Theorem execute_ignores_coordinates :
  (forall (meSCV : MasterElement) (metaData : MetaData)
          (solnOpts : SolutionOptions) (dataPreReqs reqs' : ElemDataRequests)
          (lumpedMass : bool) (k : Kernel),
     MomentumMassElemKernel AlgTraits meSCV metaData solnOpts dataPreReqs
       lumpedMass = Some (k, reqs') ->
     In (gathered_nodal_field (coordinates_ k) nDim) reqs')
  /\ (forall (k : Kernel) (sv1 sv2 : ScratchViews),
        ~ In (coordinates_ k)
            (velocityNm1_ k :: velocityN_ k :: velocityNp1_ k :: Gjp_ k
             :: nil) ->
        (forall h, same_nodal_1D AlgTraits (get_scratch_view_1D sv1 h)
                     (get_scratch_view_1D sv2 h)) ->
        (forall h, h <> coordinates_ k ->
                   same_nodal_2D AlgTraits (get_scratch_view_2D sv1 h)
                     (get_scratch_view_2D sv2 h)) ->
        same_scv_volume AlgTraits sv1 sv2 ->
        forall (lhs : View2 D) (rhs : View1 D) (i r c : nat),
          rhs_ (execute AlgTraits lhs rhs sv1 k) i
          = rhs_ (execute AlgTraits lhs rhs sv2 k) i
          /\ lhs_ (execute AlgTraits lhs rhs sv1 k) r c
             = lhs_ (execute AlgTraits lhs rhs sv2 k) r c).
Proof.
  split.
  - intros meSCV metaData solnOpts dataPreReqs reqs' lumpedMass k Hk.
    unfold MomentumMassElemKernel in Hk.
    destruct (get_field metaData "velocity") as [ve|]; [|discriminate].
    destruct (get_field metaData "density") as [de|]; [|discriminate].
    destruct (get_field metaData "dpdx") as [Gp|]; [|discriminate].
    destruct (get_field metaData (get_coordinates_name solnOpts)) as [co|];
      [|discriminate].
    injection Hk as Hk Hr. subst k reqs'. simpl.
    unfold add_master_element_call, add_gathered_nodal_field,
      add_cvfem_volume_me.
    do 8 (apply in_or_app; left).
    apply in_or_app. right. left. reflexivity.
  - intros k sv1 sv2 Hd H1 H2 H3 lhs rhs i r c.
    assert (Hv : forall h,
               In h (velocityNm1_ k :: velocityN_ k :: velocityNp1_ k
                     :: Gjp_ k :: nil) ->
               same_nodal_2D AlgTraits (get_scratch_view_2D sv1 h)
                 (get_scratch_view_2D sv2 h)).
    { intros h Hin. apply H2. intros ->. auto. }
    split.
    + rewrite !execute_rhs. apply rhs_after_ext. intros ip j Hip Hj.
      apply rhs_increment_ext; auto; apply Hv; simpl; auto.
    + rewrite !execute_lhs. apply lhs_after_ext. intros ip ic Hip Hic.
      apply lhs_increment_ext; auto.
Qed.

(** C10.  A node that owns no integration point keeps its residual entries
    and its Jacobian rows: for every dimension j, the residual entry (n, j)
    and every entry of the Jacobian row (n, j) are after [execute] what
    they were before. *)
Theorem execute_frame (lhs : View2 D) (rhs : View1 D) (sv : ScratchViews)
    (k : Kernel) (n j : nat) :
  (forall ip, ip < numScvIp -> nearestNode k ip <> n) ->
  j < nDim ->
  rhs_ (execute AlgTraits lhs rhs sv k) (n * nDim + j)%nat
  = rhs (n * nDim + j)%nat
  /\ forall c,
       lhs_ (execute AlgTraits lhs rhs sv k) (n * nDim + j)%nat c
       = lhs (n * nDim + j)%nat c.
Proof.
  intros Hown Hj. split.
  - rewrite execute_rhs. apply rhs_after_untouched.
    intros ip jj Hip Hjj E.
    destruct (node_index_inj nDim _ _ _ _ Hj Hjj E) as [En _].
    apply (Hown ip Hip). auto.
  - intros c. rewrite execute_lhs. apply lhs_after_untouched.
    intros ip ic jj Hip _ Hjj [E _].
    destruct (node_index_inj nDim _ _ _ _ Hj Hjj E) as [En _].
    apply (Hown ip Hip). auto.
Qed.


End Claims.

(** ** Claims that rest on the laws of exact arithmetic

    Here the scalar operations are those of a field: the formulas are read
    over the real (or rational) numbers. *)

Section ExactArithmetic.

Context {D : Type} {SD : Scalar D}.
Variable AlgTraits : Traits.
Variable done : D.
Variable dinv : D -> D.
Hypothesis Dfield :
  field_theory dzero done dadd dmul dsub dopp ddiv dinv (@eq D).

Local Open Scope dbl_scope.

Local Abbreviation nDim := (nDim_ AlgTraits).
Local Abbreviation nodesPerElement := (nodesPerElement_ AlgTraits).
Local Abbreviation numScvIp := (numScvIp_ AlgTraits).

Add Field Dfld : Dfield.

(** Adding what line 148 adds is subtracting the quantity of the
    specification. *)
Lemma add_rhs_increment (sv : ScratchViews) (k : Kernel) (ip j : nat) (a : D) :
  a + rhs_increment AlgTraits sv k ip j
  = a - rhs_subtrahend AlgTraits sv k ip j.
Proof.
  unfold rhs_increment, rhs_subtrahend.
  rewrite !(Fdiv_def Dfield). ring.
Qed.

(** Interpolating a constant gives the constant times the sum of the
    weights. *)
Lemma interp_from_const (w : View1 D) (c : D) (n : nat) (a : D) :
  interp_from w (fun _ => c) n a
  = a + for_loop n (fun ic acc => acc + w ic) dzero * c.
Proof.
  unfold interp_from. induction n as [|n IH]; simpl.
  - ring.
  - rewrite IH. ring.
Qed.

Lemma interpolate_const (w v : View1 D) (c : D) :
  (forall ic, ic < nodesPerElement -> v ic = c) ->
  row_sum AlgTraits w = done ->
  interpolate AlgTraits w v = c.
Proof.
  intros Hv Hw.
  rewrite (interpolate_ext AlgTraits w v (fun _ => c) Hv).
  unfold interpolate. rewrite interp_from_const.
  unfold row_sum in Hw. rewrite Hw. ring.
Qed.

(** In exact arithmetic the additions of line 148 read as subtractions:
    after [execute], the residual entry (n, j) holds its initial
    content from which, for each integration point ip owned by node n in
    ascending order, the quantity
    (gamma1 rho_np1 u_np1_j + gamma2 rho_n u_n_j + gamma3 rho_nm1 u_nm1_j)
    scV / dt + Gjp_j scV of that integration point has been subtracted; rho,
    u and Gjp are the interpolations of the gathered nodal values. *)
Theorem residual_subtracts (lhs : View2 D) (rhs : View1 D)
    (sv : ScratchViews) (k : Kernel) (n j : nat) :
  j < nDim ->
  rhs_ (execute AlgTraits lhs rhs sv k) (n * nDim + j)%nat
  = for_loop numScvIp
      (fun ip acc =>
         if Nat.eqb (nearestNode k ip) n
         then acc
              - ((gamma1_ k * rho_np1 AlgTraits sv k ip
                    * u_np1 AlgTraits sv k ip j
                  + gamma2_ k * rho_n AlgTraits sv k ip
                    * u_n AlgTraits sv k ip j
                  + gamma3_ k * rho_nm1 AlgTraits sv k ip
                    * u_nm1 AlgTraits sv k ip j) * scV sv ip / dt_ k
                 + Gjp AlgTraits sv k ip j * scV sv ip)
         else acc)
      (rhs (n * nDim + j)%nat).
Proof.
  intros Hj. rewrite execute_rhs, (rhs_after_node AlgTraits sv k n j _ Hj).
  apply for_loop_ext. intros ip acc _. unfold owns, nearestNode.
  destruct (Nat.eqb (ipNodeMap_ k ip) n); [|reflexivity].
  apply add_rhs_increment.
Qed.

(** C3 (as amended).  In exact arithmetic: with one density rho and one
    velocity u gathered at every node and
    time level, and every weight row summing to one, the residual entry
    (n, j) receives, for each integration point ip owned by node n,
    -(gamma1 + gamma2 + gamma3) rho u_j scV / dt - Gjp_j scV. *)
Theorem uniform_state_residual (lhs : View2 D) (rhs : View1 D)
    (sv : ScratchViews) (k : Kernel) (rho : D) (u : View1 D) (n j : nat) :
  (forall ip, ip < numScvIp -> row_sum AlgTraits (weight k ip) = done) ->
  (forall ic, ic < nodesPerElement ->
     get_scratch_view_1D sv (densityNm1_ k) ic = rho
     /\ get_scratch_view_1D sv (densityN_ k) ic = rho
     /\ get_scratch_view_1D sv (densityNp1_ k) ic = rho) ->
  (forall ic j, ic < nodesPerElement -> j < nDim ->
     get_scratch_view_2D sv (velocityNm1_ k) ic j = u j
     /\ get_scratch_view_2D sv (velocityN_ k) ic j = u j
     /\ get_scratch_view_2D sv (velocityNp1_ k) ic j = u j) ->
  j < nDim ->
  rhs_ (execute AlgTraits lhs rhs sv k) (n * nDim + j)%nat
  = for_loop numScvIp
      (fun ip acc =>
         if Nat.eqb (nearestNode k ip) n
         then acc
              + (- (gamma1_ k + gamma2_ k + gamma3_ k) * rho * u j
                   * scV sv ip / dt_ k
                 - Gjp AlgTraits sv k ip j * scV sv ip)
         else acc)
      (rhs (n * nDim + j)%nat).
Proof.
  intros Hw Hrho Hu Hj.
  rewrite execute_rhs, (rhs_after_node AlgTraits sv k n j _ Hj).
  apply for_loop_ext. intros ip acc Hip. unfold owns, nearestNode.
  destruct (Nat.eqb (ipNodeMap_ k ip) n); [|reflexivity].
  f_equal. unfold rhs_increment, rho_nm1, rho_n, rho_np1, u_nm1, u_n, u_np1.
  rewrite (interpolate_const _ _ rho (fun ic H => proj1 (Hrho ic H))
             (Hw ip Hip)).
  rewrite (interpolate_const _ _ rho
             (fun ic H => proj1 (proj2 (Hrho ic H))) (Hw ip Hip)).
  rewrite (interpolate_const _ _ rho
             (fun ic H => proj2 (proj2 (Hrho ic H))) (Hw ip Hip)).
  rewrite (interpolate_const _ _ (u j) (fun ic H => proj1 (Hu ic j H Hj))
             (Hw ip Hip)).
  rewrite (interpolate_const _ _ (u j)
             (fun ic H => proj1 (proj2 (Hu ic j H Hj))) (Hw ip Hip)).
  rewrite (interpolate_const _ _ (u j)
             (fun ic H => proj2 (proj2 (Hu ic j H Hj))) (Hw ip Hip)).
  rewrite !(Fdiv_def Dfield). ring.
Qed.


(** In exact arithmetic the accumulation reads: each buffer ends as its
    initial content plus what [execute] leaves in zeroed buffers. *)
Lemma fold_left_add_from (l : list D) (a : D) :
  fold_left dadd l a = a + fold_left dadd l dzero.
Proof.
  revert a. induction l as [|x l IH]; intros a; simpl.
  - ring.
  - rewrite (IH (a + x)), (IH (dzero + x)). ring.
Qed.

(** X13.  Superposition: every residual entry and every Jacobian entry
    after [execute] is its initial content plus the entry [execute] leaves
    in zeroed buffers for the same scratch context and kernel. *)
Lemma execute_adds_own_contribution (lhs : View2 D) (rhs : View1 D)
    (sv : ScratchViews) (k : Kernel) (i r c : nat) :
  rhs_ (execute AlgTraits lhs rhs sv k) i
  = rhs i + rhs_ (execute AlgTraits zero_lhs zero_rhs sv k) i
  /\ lhs_ (execute AlgTraits lhs rhs sv k) r c
     = lhs r c + lhs_ (execute AlgTraits zero_lhs zero_rhs sv k) r c.
Proof.
  rewrite !execute_rhs, !execute_lhs.
  rewrite !rhs_after_increments, !lhs_after_increments.
  split; apply fold_left_add_from.
Qed.

End ExactArithmetic.

(** * Concrete runs *)

Import Exact.
Import Binary64.

(** The constructor on the two triangle meshes. *)
Example tri3_constructed :
  MomentumMassElemKernel tri3 (tri3_scv Exact.ratio) tri3_mesh tri3_options
    nil false
  = Some (tri3_new Exact.ratio, tri3_requests).
Proof. reflexivity. Qed.

Example tri3_constructed_restart :
  MomentumMassElemKernel tri3 (tri3_scv Binary64.ratio) tri3_mesh_restart
    tri3_options nil false
  = Some (tri3_new_restart Binary64.ratio,
          cvfem_volume_me
          :: gathered_nodal_field 40 2
          :: gathered_nodal_field 22 1 :: gathered_nodal_field 21 1
          :: gathered_nodal_field 20 1
          :: gathered_nodal_field 11 2 :: gathered_nodal_field 11 2
          :: gathered_nodal_field 10 2
          :: gathered_nodal_field 30 2
          :: master_element_call SCV_VOLUME :: nil).
Proof. reflexivity. Qed.

Example tri3_constructed_three_state :
  MomentumMassElemKernel tri3 (tri3_scv Exact.ratio) tri3_mesh_three_state
    tri3_options nil false
  = Some (tri3_new_three_state Exact.ratio,
          cvfem_volume_me
          :: gathered_nodal_field 40 2
          :: gathered_nodal_field 22 1 :: gathered_nodal_field 21 1
          :: gathered_nodal_field 20 1
          :: gathered_nodal_field 12 2 :: gathered_nodal_field 11 2
          :: gathered_nodal_field 10 2
          :: gathered_nodal_field 30 2
          :: master_element_call SCV_VOLUME :: nil).
Proof. reflexivity. Qed.

(** The scenario of the specification on the triangle, in binary64: with
    density 1, velocity (1, 0), no pressure gradient, gammas (1, 0, 0) and
    dt = 1/8, the x entry of every node is -(1/6)/(1/8) and the y entry
    is zero. *)
Example unit_flow_residual_binary64 :
  map (rhs_ (execute tri3 zero_lhs zero_rhs (tri3_views_unit Binary64.ratio)
               (setup (implicit_only Binary64.ratio)
                  (tri3_new Binary64.ratio))))
      (seq 0 6)
  = let x := PrimFloat.opp (PrimFloat.div (Binary64.ratio 1 6)
                              (Binary64.ratio 1 8)) in
    x :: PrimFloat.zero :: x :: PrimFloat.zero :: x :: PrimFloat.zero :: nil.
Proof. vm_compute. reflexivity. Qed.


(** The residual of the triangle with the varying data and the
    second-order step, in exact arithmetic. *)
Example tri3_residual_exact :
  map (fun i =>
         Qcanon.this
           (rhs_ (execute tri3 zero_lhs zero_rhs (tri3_views Exact.ratio)
                    (tri3_kernel Exact.ratio)) i))
      (seq 0 6)
  = QArith_base.Qmake 45 256 :: QArith_base.Qmake 71 384
    :: QArith_base.Qmake 3 8 :: QArith_base.Qmake 151 384
    :: QArith_base.Qmake 153 256 :: QArith_base.Qmake 5 8 :: nil.
Proof. vm_compute. reflexivity. Qed.

(** The Jacobian rows of node 0 for the same data: the entries that pair
    different dimensions are zero. *)
Example tri3_jacobian_exact :
  map (fun r =>
         map (fun c =>
                Qcanon.this
                  (lhs_ (execute tri3 zero_lhs zero_rhs
                           (tri3_views Exact.ratio)
                           (tri3_kernel Exact.ratio)) r c))
             (seq 0 6))
      (seq 0 2)
  = (QArith_base.Qmake 1925 512 :: QArith_base.Qmake 0 1
     :: QArith_base.Qmake 1375 1024 :: QArith_base.Qmake 0 1
     :: QArith_base.Qmake 1375 1024 :: QArith_base.Qmake 0 1 :: nil)
    :: (QArith_base.Qmake 0 1 :: QArith_base.Qmake 1925 512
        :: QArith_base.Qmake 0 1 :: QArith_base.Qmake 1375 1024
        :: QArith_base.Qmake 0 1 :: QArith_base.Qmake 1375 1024 :: nil)
    :: nil.
Proof. vm_compute. reflexivity. Qed.

(** With gamma3 = 0 and the finite data of the triangle, replacing the
    gathered n-1 velocity leaves the binary64 residual as it is. *)
Example history_ignored_binary64 :
  map (rhs_ (execute tri3 zero_lhs zero_rhs (tri3_views Binary64.ratio)
               (tri3_kernel_bdf1 Binary64.ratio)))
      (seq 0 6)
  = map (rhs_ (execute tri3 zero_lhs zero_rhs
                 (tri3_views_history Binary64.ratio)
                 (tri3_kernel_bdf1 Binary64.ratio)))
        (seq 0 6).
Proof. vm_compute. reflexivity. Qed.

(** A second call on the kernel object the first call returns, in
    binary64. *)
Example second_call_binary64 :
  let first := execute tri3 zero_lhs zero_rhs (tri3_views Binary64.ratio)
                 (tri3_kernel Binary64.ratio) in
  let second := execute tri3 zero_lhs zero_rhs (tri3_views Binary64.ratio)
                  (this_ first) in
  map (rhs_ second) (seq 0 6) = map (rhs_ first) (seq 0 6)
  /\ map (v_uNp1_ (this_ first)) (seq 0 2)
     <> map (v_uNp1_ (tri3_kernel Binary64.ratio)) (seq 0 2).
Proof.
  split.
  - vm_compute. reflexivity.
  - vm_compute. intros H. discriminate H.
Qed.
(** * The theorems at concrete inputs *)

Lemma residual_subtracts_witness :
  0 < nDim_ tri3
  /\ rhs_ (execute tri3 zero_lhs zero_rhs (tri3_views Exact.ratio)
             (tri3_kernel Exact.ratio)) (1 * 2 + 0)
     = for_loop 3
         (fun ip acc =>
            if Nat.eqb (nearestNode (tri3_kernel Exact.ratio) ip) 1
            then dsub acc
                   (rhs_subtrahend tri3 (tri3_views Exact.ratio)
                      (tri3_kernel Exact.ratio) ip 0)
            else acc)
         (zero_rhs (1 * 2 + 0)).
Proof.
  assert (H : 0 < nDim_ tri3) by (simpl; lia).
  split; [exact H|].
  exact (residual_subtracts tri3 Exact.one Exact.inv Exact.Qc_field
           zero_lhs zero_rhs
           (tri3_views Exact.ratio) (tri3_kernel Exact.ratio) 1 0 H).
Defined.

Lemma jacobian_block_diagonal_witness :
  let k := tri3_kernel Binary64.ratio in
  let sv := tri3_views Binary64.ratio in
  let lhs := fun r c : nat => Binary64.ratio (Z.of_nat (r + 3 * c)) 1 in
  let J := lhs_ (execute tri3 lhs zero_rhs sv k) in
  (2 < 3 /\ 0 < 2
   /\ J (1 * 2 + 0) (2 * 2 + 0)
      = for_loop 3
          (fun ip acc =>
             if Nat.eqb (nearestNode k ip) 1
             then dadd acc (lhs_increment tri3 sv k ip 2) else acc)
          (lhs (1 * 2 + 0) (2 * 2 + 0)))
  /\ (0 < 2 /\ 1 < 2 /\ 0 <> 1
      /\ J (1 * 2 + 0) (2 * 2 + 1) = lhs (1 * 2 + 0) (2 * 2 + 1)).
Proof.
  intros k sv lhs J.
  destruct (jacobian_block_diagonal tri3 lhs zero_rhs sv k) as [Hd Ho].
  assert (H23 : 2 < 3) by lia.
  assert (H02 : 0 < 2) by lia.
  assert (H12 : 1 < 2) by lia.
  assert (H01 : 0 <> 1) by lia.
  split.
  - split; [exact H23 | split; [exact H02 |]].
    exact (Hd 1 2 0 H23 H02).
  - split; [exact H02 | split; [exact H12 | split; [exact H01 |]]].
    exact (Ho 1 2 0 1 H02 H12 H01).
Defined.

Lemma uniform_state_residual_witness :
  let k := setup (implicit_only Exact.ratio) (tri3_new Exact.ratio) in
  let sv := tri3_views_uniform Exact.ratio in
  let u := fun j : nat => if Nat.eqb j 0 then Exact.ratio 3 1
                          else Exact.ratio (-1) 1 in
  rhs_ (execute tri3 zero_lhs zero_rhs sv k) (2 * 2 + 1)
  = for_loop 3
      (fun ip acc =>
         if Nat.eqb (nearestNode k ip) 2
         then dadd acc
                (dsub
                   (ddiv
                      (dmul
                         (dmul
                            (dmul
                               (dopp (dadd (dadd (gamma1_ k) (gamma2_ k))
                                        (gamma3_ k)))
                               (Exact.ratio 2 1))
                            (u 1))
                         (scV sv ip))
                      (dt_ k))
                   (dmul (Gjp tri3 sv k ip 1) (scV sv ip)))
         else acc)
      (zero_rhs (2 * 2 + 1)).
Proof.
  intros k sv u.
  apply (uniform_state_residual tri3 Exact.one Exact.inv Exact.Qc_field
           zero_lhs zero_rhs sv k (Exact.ratio 2 1) u 2 1).
  - intros ip Hip.
    destruct ip as [|[|[|ip]]];
      [ apply Qcanon.Qc_is_canon; reflexivity
      | apply Qcanon.Qc_is_canon; reflexivity
      | apply Qcanon.Qc_is_canon; reflexivity
      | simpl in Hip; lia ].
  - intros ic Hic. repeat split.
  - intros ic j Hic Hj.
    destruct j as [|[|j]]; [repeat split | repeat split | simpl in Hj; lia].
  - simpl; lia.
Defined.

Lemma two_state_aliasing_witness :
  let sv := tri3_views Binary64.ratio in
  (velocityNm1_ (tri3_new_restart Binary64.ratio)
   = velocityN_ (tri3_new_restart Binary64.ratio)
   /\ let k' := snd (execute_interpolation tri3 sv
                      (tri3_new_restart Binary64.ratio) 1
                      (tri3_new_restart Binary64.ratio)) in
      v_uNm1_ k' 1 = v_uN_ k' 1)
  /\ (densityNm1_ (tri3_new Binary64.ratio)
      = densityN_ (tri3_new Binary64.ratio)
      /\ let rho := fst (execute_interpolation tri3 sv
                           (tri3_new Binary64.ratio) 2
                           (tri3_new Binary64.ratio)) in
         rhoNm1 rho = rhoN rho).
Proof.
  intros sv. split.
  - destruct (two_state_aliasing tri3 (tri3_scv Binary64.ratio)
                tri3_mesh_restart tri3_options nil _ false
                (tri3_new_restart Binary64.ratio)
                (MkField 10 2
                   (fun s => match s with
                             | StateNP1 => 10 | StateN => 11 | StateNM1 => 12
                             end))
                (MkField 20 3
                   (fun s => match s with
                             | StateNP1 => 20 | StateN => 21 | StateNM1 => 22
                             end))
                eq_refl eq_refl eq_refl) as [Hv _].
    destruct (Hv eq_refl) as [Ha Hi].
    split; [exact Ha|].
    assert (H12 : 1 < nDim_ tri3) by (simpl; lia).
    exact (Hi sv (tri3_new_restart Binary64.ratio) 1 1 H12).
  - destruct (two_state_aliasing tri3 (tri3_scv Binary64.ratio)
                tri3_mesh tri3_options nil _ false
                (tri3_new Binary64.ratio)
                (MkField 10 3
                   (fun s => match s with
                             | StateNP1 => 10 | StateN => 11 | StateNM1 => 12
                             end))
                (MkField 20 2
                   (fun s => match s with
                             | StateNP1 => 20 | StateN => 21 | StateNM1 => 22
                             end))
                eq_refl eq_refl eq_refl) as [_ Hd].
    destruct (Hd eq_refl) as [Ha Hi].
    split; [exact Ha|].
    exact (Hi sv (tri3_new Binary64.ratio) 2).
Defined.


Lemma execute_ignores_coordinates_witness :
  let k := tri3_kernel Binary64.ratio in
  let sv1 := tri3_views Binary64.ratio in
  let sv2 := tri3_views_moved Binary64.ratio in
  In (gathered_nodal_field (coordinates_ (tri3_new Binary64.ratio)) 2)
    tri3_requests
  /\ ~ In (coordinates_ k)
         (velocityNm1_ k :: velocityN_ k :: velocityNp1_ k :: Gjp_ k :: nil)
  /\ rhs_ (execute tri3 zero_lhs zero_rhs sv1 k) 3
     = rhs_ (execute tri3 zero_lhs zero_rhs sv2 k) 3
  /\ lhs_ (execute tri3 zero_lhs zero_rhs sv1 k) 3 5
     = lhs_ (execute tri3 zero_lhs zero_rhs sv2 k) 3 5.
Proof.
  intros k sv1 sv2.
  destruct (execute_ignores_coordinates (D:=PrimFloat.float) tri3)
    as [Hreg Hind].
  assert (Hd : ~ In (coordinates_ k)
                 (velocityNm1_ k :: velocityN_ k :: velocityNp1_ k
                  :: Gjp_ k :: nil)).
  { simpl. intros [H | [H | [H | [H | H]]]];
      try discriminate H; exact H. }
  split; [|split; [exact Hd|]].
  - exact (Hreg (tri3_scv Binary64.ratio) tri3_mesh tri3_options nil
             tri3_requests false (tri3_new Binary64.ratio) eq_refl).
  - apply (Hind k sv1 sv2 Hd).
    + intros h ic Hic. reflexivity.
    + intros h Hh ic j Hic Hj. simpl.
      destruct (Nat.eqb_spec h 40) as [E | E];
        [exfalso; exact (Hh E) | reflexivity].
    + intros ip Hip. reflexivity.
Defined.

Lemma execute_frame_witness :
  let k := tri3_kernel Binary64.ratio in
  let sv := tri3_views Binary64.ratio in
  let lhs := fun r c : nat => Binary64.ratio (Z.of_nat (r + 3 * c)) 1 in
  let rhs := fun i : nat => Binary64.ratio (Z.of_nat i) 7 in
  1 < nDim_ tri3_two_ips
  /\ rhs_ (execute tri3_two_ips lhs rhs sv k) (2 * 2 + 1) = rhs (2 * 2 + 1)
  /\ lhs_ (execute tri3_two_ips lhs rhs sv k) (2 * 2 + 1) 3
     = lhs (2 * 2 + 1) 3.
Proof.
  intros k sv lhs rhs.
  assert (Hj : 1 < nDim_ tri3_two_ips) by (simpl; lia).
  assert (Hown : forall ip, ip < numScvIp_ tri3_two_ips ->
                            nearestNode k ip <> 2).
  { intros ip Hip. simpl in *. unfold nearestNode. simpl. lia. }
  destruct (execute_frame tri3_two_ips lhs rhs sv k 2 1 Hown Hj) as [Hr Hl].
  split; [exact Hj | split; [exact Hr | exact (Hl 3)]].
Defined.

(** * Further properties of the constructor and of [execute] *)

(** ** For any scalar arithmetic *)

Section KernelLife.

Context {D : Type} {SD : Scalar D}.
Variable AlgTraits : Traits.
Local Open Scope dbl_scope.

Local Abbreviation nDim := (nDim_ AlgTraits).
Local Abbreviation nodesPerElement := (nodesPerElement_ AlgTraits).
Local Abbreviation numScvIp := (numScvIp_ AlgTraits).

(** Component [j] of the four member vectors after the interpolation phase
    of one integration point: the interpolated value below nDim, the old
    content from nDim on. *)
Lemma execute_interpolation_vec (sv : ScratchViews) (k this : Kernel)
    (ip j : nat) :
  let k' := snd (execute_interpolation AlgTraits sv k ip this) in
  let w := v_shape_function_ this ip in
  let value (h : FieldHandle) (old : D) :=
    if j <? nDim
    then interpolate AlgTraits w (fun ic => get_scratch_view_2D sv h ic j)
    else old in
  v_uNm1_ k' j = value (velocityNm1_ k) (v_uNm1_ this j)
  /\ v_uN_ k' j = value (velocityN_ k) (v_uN_ this j)
  /\ v_uNp1_ k' j = value (velocityNp1_ k) (v_uNp1_ this j)
  /\ v_Gjp_ k' j = value (Gjp_ k) (v_Gjp_ this j).
Proof.
  cbv zeta. unfold execute_interpolation, ip_interpolation.
  pose proof (interpolate_ip_vec AlgTraits
                (get_scratch_view_1D sv (densityNm1_ k))
                (get_scratch_view_1D sv (densityN_ k))
                (get_scratch_view_1D sv (densityNp1_ k))
                (get_scratch_view_2D sv (velocityNm1_ k))
                (get_scratch_view_2D sv (velocityN_ k))
                (get_scratch_view_2D sv (velocityNp1_ k))
                (get_scratch_view_2D sv (Gjp_ k))
                ip (MkRho dzero dzero dzero)
                (zero_ip_vectors AlgTraits this) j) as H.
  cbv zeta in H.
  pose proof (config_inv _ _ (zero_ip_vectors_config AlgTraits this)) as Hc.
  destruct Hc as (_ & _ & _ & _ & _ & Hw). rewrite Hw in H.
  pose proof (zero_ip_vectors_at AlgTraits this j) as Hz. cbv zeta in Hz.
  destruct Hz as (Z1 & Z2 & Z3 & Z4). rewrite Z1, Z2, Z3, Z4 in H.
  destruct (j <? nDim).
  - exact H.
  - rewrite !for_loop_skip in H. exact H.
Qed.

(** The kernel object one pass of the loop over the integration points
    leaves is the one its interpolation phase leaves. *)
Lemma execute_ip_this (sv : ScratchViews) (k : Kernel) (ip : nat) (st : Exec) :
  this_ (execute_ip AlgTraits sv k ip st)
  = snd (execute_interpolation AlgTraits sv k ip (this_ st)).
Proof.
  unfold execute_ip, ip_body, execute_interpolation.
  destruct (ip_interpolation _ _ _ _ _ _ _ _ _ (this_ st)) as [rho k'].
  reflexivity.
Qed.

(** Component [j] of the member vectors after [execute]: from nDim on it is
    what it was; below nDim it is overwritten at every integration point. *)
Lemma execute_member_vectors (lhs : View2 D) (rhs : View1 D)
    (sv : ScratchViews) (k : Kernel) (j : nat) :
  let k' := this_ (execute AlgTraits lhs rhs sv k) in
  let last (u : nat -> nat -> D) (old : D) :=
    for_loop numScvIp (fun ip acc => if j <? nDim then u ip j else acc) old in
  v_uNm1_ k' j = last (u_nm1 AlgTraits sv k) (v_uNm1_ k j)
  /\ v_uN_ k' j = last (u_n AlgTraits sv k) (v_uN_ k j)
  /\ v_uNp1_ k' j = last (u_np1 AlgTraits sv k) (v_uNp1_ k j)
  /\ v_Gjp_ k' j = last (Gjp AlgTraits sv k) (v_Gjp_ k j).
Proof.
  cbv zeta. unfold execute.
  assert (HI : forall ip st, ip < numScvIp ->
                 config (this_ st) = config k ->
                 config (this_ (execute_ip AlgTraits sv k ip st)) = config k).
  { intros ip st _ H. apply (execute_ip_spec AlgTraits sv k ip st H). }
  assert (Hstep : forall ip st, config (this_ st) = config k ->
            let k' := this_ (execute_ip AlgTraits sv k ip st) in
            v_uNm1_ k' j
            = (if j <? nDim then u_nm1 AlgTraits sv k ip j
               else v_uNm1_ (this_ st) j)
            /\ v_uN_ k' j
               = (if j <? nDim then u_n AlgTraits sv k ip j
                  else v_uN_ (this_ st) j)
            /\ v_uNp1_ k' j
               = (if j <? nDim then u_np1 AlgTraits sv k ip j
                  else v_uNp1_ (this_ st) j)
            /\ v_Gjp_ k' j
               = (if j <? nDim then Gjp AlgTraits sv k ip j
                  else v_Gjp_ (this_ st) j)).
  { intros ip st H. cbv zeta. rewrite execute_ip_this.
    pose proof (execute_interpolation_vec sv k (this_ st) ip j) as V.
    cbv zeta in V.
    destruct (config_inv _ _ H) as (_ & _ & _ & _ & _ & Hw).
    rewrite Hw in V. exact V. }
  repeat split.
  - apply (for_loop_proj_inv (fun st => config (this_ st) = config k)
             (fun st => v_uNm1_ (this_ st) j) _
             (fun ip acc => if j <? nDim then u_nm1 AlgTraits sv k ip j
                            else acc)
             numScvIp (MkExec k lhs rhs) HI); [|reflexivity].
    intros ip st _ H. apply (Hstep ip st H).
  - apply (for_loop_proj_inv (fun st => config (this_ st) = config k)
             (fun st => v_uN_ (this_ st) j) _
             (fun ip acc => if j <? nDim then u_n AlgTraits sv k ip j
                            else acc)
             numScvIp (MkExec k lhs rhs) HI); [|reflexivity].
    intros ip st _ H. apply (Hstep ip st H).
  - apply (for_loop_proj_inv (fun st => config (this_ st) = config k)
             (fun st => v_uNp1_ (this_ st) j) _
             (fun ip acc => if j <? nDim then u_np1 AlgTraits sv k ip j
                            else acc)
             numScvIp (MkExec k lhs rhs) HI); [|reflexivity].
    intros ip st _ H. apply (Hstep ip st H).
  - apply (for_loop_proj_inv (fun st => config (this_ st) = config k)
             (fun st => v_Gjp_ (this_ st) j) _
             (fun ip acc => if j <? nDim then Gjp AlgTraits sv k ip j
                            else acc)
             numScvIp (MkExec k lhs rhs) HI); [|reflexivity].
    intros ip st _ H. apply (Hstep ip st H).
Qed.

(** X3.  [execute] changes no member of the kernel object but the four scratch
    vectors, and of those only the entries below nDim: the field handles,
    the owning-node map, the shape-function table, the lumped-mass flag and
    the time-step coefficients bound by [setup] are after the call what
    they were before it. *)
Theorem execute_keeps_kernel_members (lhs : View2 D) (rhs : View1 D)
    (sv : ScratchViews) (k : Kernel) :
  let k' := this_ (execute AlgTraits lhs rhs sv k) in
  (lumpedMass_ k' = lumpedMass_ k
   /\ ipNodeMap_ k' = ipNodeMap_ k
   /\ velocityNm1_ k' = velocityNm1_ k
   /\ velocityN_ k' = velocityN_ k
   /\ velocityNp1_ k' = velocityNp1_ k
   /\ densityNm1_ k' = densityNm1_ k
   /\ densityN_ k' = densityN_ k
   /\ densityNp1_ k' = densityNp1_ k
   /\ Gjp_ k' = Gjp_ k
   /\ coordinates_ k' = coordinates_ k
   /\ dt_ k' = dt_ k
   /\ gamma1_ k' = gamma1_ k
   /\ gamma2_ k' = gamma2_ k
   /\ gamma3_ k' = gamma3_ k
   /\ v_shape_function_ k' = v_shape_function_ k)
  /\ (forall j, nDim <= j ->
        v_uNm1_ k' j = v_uNm1_ k j
        /\ v_uN_ k' j = v_uN_ k j
        /\ v_uNp1_ k' j = v_uNp1_ k j
        /\ v_Gjp_ k' j = v_Gjp_ k j).
Proof.
  cbv zeta. split.
  - pose proof (execute_config AlgTraits lhs rhs sv k) as H.
    unfold config in H. injection H. intros. repeat split; assumption.
  - intros j Hj.
    pose proof (execute_member_vectors lhs rhs sv k j) as H. cbv zeta in H.
    apply Nat.ltb_ge in Hj. rewrite Hj in H.
    rewrite !for_loop_skip in H. exact H.
Qed.

(** X4.  After [execute] over at least one integration point, the entries below
    nDim of the four scratch vectors hold the velocities and the pressure
    gradient interpolated at the last integration point. *)
Theorem execute_leaves_last_interpolation (lhs : View2 D) (rhs : View1 D)
    (sv : ScratchViews) (k : Kernel) (j : nat) :
  0 < numScvIp ->
  j < nDim ->
  let k' := this_ (execute AlgTraits lhs rhs sv k) in
  let last := (numScvIp - 1)%nat in
  v_uNm1_ k' j = u_nm1 AlgTraits sv k last j
  /\ v_uN_ k' j = u_n AlgTraits sv k last j
  /\ v_uNp1_ k' j = u_np1 AlgTraits sv k last j
  /\ v_Gjp_ k' j = Gjp AlgTraits sv k last j.
Proof.
  intros Hn Hj. cbv zeta.
  pose proof (execute_member_vectors lhs rhs sv k j) as H. cbv zeta in H.
  apply Nat.ltb_lt in Hj. rewrite Hj in H.
  destruct numScvIp as [|m]; [lia|].
  replace (S m - 1)%nat with m by lia. exact H.
Qed.

(** X5.  When a loop of [execute] has nothing to run over, the buffers are left
    as they are: the residual and the Jacobian when there is no integration
    point or no dimension, the Jacobian also when there is no local node. *)
Theorem execute_on_empty_loops (lhs : View2 D) (rhs : View1 D)
    (sv : ScratchViews) (k : Kernel) :
  (numScvIp = 0 \/ nDim = 0 ->
     forall i, rhs_ (execute AlgTraits lhs rhs sv k) i = rhs i)
  /\ (numScvIp = 0 \/ nDim = 0 \/ nodesPerElement = 0 ->
        forall r c, lhs_ (execute AlgTraits lhs rhs sv k) r c = lhs r c).
Proof.
  split.
  - intros H i. rewrite execute_rhs. apply rhs_after_untouched.
    intros ip j Hip Hj. lia.
  - intros H r c. rewrite execute_lhs. apply lhs_after_untouched.
    intros ip ic j Hip Hic Hj. lia.
Qed.

(** X6.  The Jacobian [execute] produces is a function of the gathered n+1
    density, the volume measures, the kernel and the initial Jacobian: the
    gathered velocities, pressure gradient, older densities and coordinates
    and the residual buffer do not enter it. *)
Theorem jacobian_reads_density_and_volume_only (k : Kernel)
    (sv1 sv2 : ScratchViews) (lhs : View2 D) (rhs1 rhs2 : View1 D)
    (r c : nat) :
  same_nodal_1D AlgTraits (get_scratch_view_1D sv1 (densityNp1_ k))
    (get_scratch_view_1D sv2 (densityNp1_ k)) ->
  same_scv_volume AlgTraits sv1 sv2 ->
  lhs_ (execute AlgTraits lhs rhs1 sv1 k) r c
  = lhs_ (execute AlgTraits lhs rhs2 sv2 k) r c.
Proof.
  intros Hd Hs. rewrite !execute_lhs. apply lhs_after_ext.
  intros ip ic Hip Hic. apply lhs_increment_ext; auto.
Qed.

(** X7.  Two calls in a row on the same buffers, the second on the kernel object
    and the buffers as the first left them: every entry ends as its initial
    content with the increments of the first call and then those of the
    second added to it. *)
Theorem execute_calls_compose (lhs : View2 D) (rhs : View1 D)
    (sv1 sv2 : ScratchViews) (k : Kernel) (i r c : nat) :
  let first := execute AlgTraits lhs rhs sv1 k in
  let second :=
    execute AlgTraits (lhs_ first) (rhs_ first) sv2 (this_ first) in
  rhs_ second i
  = fold_left dadd
      (rhs_increments AlgTraits sv1 k i ++ rhs_increments AlgTraits sv2 k i)
      (rhs i)
  /\ lhs_ second r c
     = fold_left dadd
         (lhs_increments AlgTraits sv1 k r c
          ++ lhs_increments AlgTraits sv2 k r c)
         (lhs r c).
Proof.
  cbv zeta.
  pose proof (execute_config AlgTraits lhs rhs sv1 k) as Hc.
  split.
  - rewrite (execute_rhs AlgTraits _ _ sv2).
    rewrite (rhs_after_config AlgTraits sv2 _ k i _ Hc).
    rewrite execute_rhs, !rhs_after_increments, fold_left_app. reflexivity.
  - rewrite (execute_lhs AlgTraits _ _ sv2).
    rewrite (lhs_after_config AlgTraits sv2 _ k r c _ Hc).
    rewrite execute_lhs, !lhs_after_increments, fold_left_app. reflexivity.
Qed.

End KernelLife.

(** ** In exact arithmetic *)

Section ExactConsequences.

Context {D : Type} {SD : Scalar D}.
Variable AlgTraits : Traits.
Variable done : D.
Variable dinv : D -> D.
Hypothesis Dfield :
  field_theory dzero done dadd dmul dsub dopp ddiv dinv (@eq D).

Local Open Scope dbl_scope.

Local Abbreviation nDim := (nDim_ AlgTraits).
Local Abbreviation nodesPerElement := (nodesPerElement_ AlgTraits).
Local Abbreviation numScvIp := (numScvIp_ AlgTraits).

Add Field Dfld' : Dfield.

(** Interpolation is linear in each nodal value: adding [delta] to the value
    of local node [ic0] adds weight(ic0) * delta. *)
Lemma interp_from_perturbed (w v v' : View1 D) (delta : D) (ic0 n : nat)
    (a : D) :
  ic0 < n ->
  (forall ic, ic < n -> ic <> ic0 -> v' ic = v ic) ->
  v' ic0 = v ic0 + delta ->
  interp_from w v' n a = interp_from w v n a + w ic0 * delta.
Proof.
  unfold interp_from. intros Hlt Hv H0.
  induction n as [|n IH]; [lia|]. simpl.
  destruct (Nat.eq_dec ic0 n) as [->|Hne].
  - rewrite (for_loop_ext n _ (fun ic acc => acc + w ic * v ic)).
    + rewrite H0. ring.
    + intros ic acc Hic. rewrite Hv by lia. reflexivity.
  - rewrite IH by (try lia; intros; apply Hv; lia).
    rewrite (Hv n) by lia. ring.
Qed.

(** A guarded sum of differences. *)
Lemma guarded_sum_sub (n : nat) (c : nat -> bool) (a b : nat -> D)
    (delta r : D) :
  for_loop n (fun ip acc => if c ip then acc + (a ip - b ip * delta) else acc)
    r
  = for_loop n (fun ip acc => if c ip then acc + a ip else acc) r
    - for_loop n (fun ip acc => if c ip then acc + b ip else acc) dzero
      * delta.
Proof.
  induction n as [|n IH]; simpl.
  - ring.
  - destruct (c n); rewrite IH; ring.
Qed.

(** X8.  The Jacobian is the derivative of the residual with respect to the n+1
    velocity, with the sign reversed.  For a velocity field with its own
    n+1 state: adding [delta] to component j0 of the gathered n+1 velocity
    of local node ic0 lowers the residual entry (n, j0) of every node n by
    [delta] times the Jacobian entry (n, j0), (ic0, j0) that [execute]
    leaves in a zeroed buffer, and leaves the residual entries of the other
    dimensions as they are. *)
Theorem jacobian_is_residual_derivative (k : Kernel) (sv sv' : ScratchViews)
    (ic0 j0 : nat) (delta : D) :
  ~ In (velocityNp1_ k) (velocityNm1_ k :: velocityN_ k :: Gjp_ k :: nil) ->
  ic0 < nodesPerElement ->
  j0 < nDim ->
  (forall h ic, get_scratch_view_1D sv' h ic = get_scratch_view_1D sv h ic) ->
  (forall h ic j, ~ (h = velocityNp1_ k /\ ic = ic0 /\ j = j0) ->
     get_scratch_view_2D sv' h ic j = get_scratch_view_2D sv h ic j) ->
  get_scratch_view_2D sv' (velocityNp1_ k) ic0 j0
  = get_scratch_view_2D sv (velocityNp1_ k) ic0 j0 + delta ->
  (forall ip, scv_volume sv' ip = scv_volume sv ip) ->
  forall (lhs : View2 D) (rhs : View1 D) (n : nat),
    rhs_ (execute AlgTraits lhs rhs sv' k) (n * nDim + j0)%nat
    = rhs_ (execute AlgTraits lhs rhs sv k) (n * nDim + j0)%nat
      - lhs_ (execute AlgTraits zero_lhs zero_rhs sv k)
          (n * nDim + j0)%nat (ic0 * nDim + j0)%nat * delta
    /\ forall j, j < nDim -> j <> j0 ->
         rhs_ (execute AlgTraits lhs rhs sv' k) (n * nDim + j)%nat
         = rhs_ (execute AlgTraits lhs rhs sv k) (n * nDim + j)%nat.
Proof.
  intros Hd Hic0 Hj0 H1 H2 H3 Hs lhs rhs n.
  assert (Hrho : forall ip,
             rho_nm1 AlgTraits sv' k ip = rho_nm1 AlgTraits sv k ip
             /\ rho_n AlgTraits sv' k ip = rho_n AlgTraits sv k ip
             /\ rho_np1 AlgTraits sv' k ip = rho_np1 AlgTraits sv k ip).
  { intros ip. unfold rho_nm1, rho_n, rho_np1.
    repeat split; apply interpolate_ext; intros; apply H1. }
  assert (Hold : forall ip j,
             u_nm1 AlgTraits sv' k ip j = u_nm1 AlgTraits sv k ip j
             /\ u_n AlgTraits sv' k ip j = u_n AlgTraits sv k ip j
             /\ Gjp AlgTraits sv' k ip j = Gjp AlgTraits sv k ip j).
  { intros ip j. unfold u_nm1, u_n, Gjp.
    repeat split; apply interpolate_ext; intros ic _; apply H2;
      intros (E & _ & _); apply Hd; rewrite <- E; simpl; auto. }
  split.
  - rewrite !execute_rhs, execute_lhs.
    rewrite !(rhs_after_node AlgTraits _ k n j0 _ Hj0).
    rewrite (lhs_after_node AlgTraits sv k n ic0 j0 _ Hic0 Hj0).
    unfold zero_lhs.
    rewrite <- guarded_sum_sub. apply for_loop_ext. intros ip acc _.
    destruct (owns k n ip); [|reflexivity]. f_equal.
    unfold rhs_increment, lhs_increment, scV.
    destruct (Hrho ip) as (R1 & R2 & R3). destruct (Hold ip j0) as (U1 & U2 & U3).
    rewrite R1, R2, R3, U1, U2, U3, Hs.
    assert (Hu : u_np1 AlgTraits sv' k ip j0
                 = u_np1 AlgTraits sv k ip j0 + weight k ip ic0 * delta).
    { unfold u_np1, interpolate.
      apply (interp_from_perturbed (weight k ip)
               (fun ic => get_scratch_view_2D sv (velocityNp1_ k) ic j0)
               (fun ic => get_scratch_view_2D sv' (velocityNp1_ k) ic j0)
               delta ic0 nodesPerElement dzero Hic0).
      - intros ic _ Hne. apply H2. intros (_ & E & _). auto.
      - exact H3. }
    rewrite Hu, !(Fdiv_def Dfield). ring.
  - intros j Hj Hne. rewrite !execute_rhs.
    rewrite !(rhs_after_node AlgTraits _ k n j _ Hj).
    apply for_loop_ext. intros ip acc _.
    destruct (owns k n ip); [|reflexivity]. f_equal.
    unfold rhs_increment, scV.
    destruct (Hrho ip) as (R1 & R2 & R3). destruct (Hold ip j) as (U1 & U2 & U3).
    rewrite R1, R2, R3, U1, U2, U3, Hs.
    assert (Hu : u_np1 AlgTraits sv' k ip j = u_np1 AlgTraits sv k ip j).
    { unfold u_np1. apply interpolate_ext. intros ic _. apply H2.
      intros (_ & _ & E). auto. }
    rewrite Hu. reflexivity.
Qed.

(** X9.  When the velocity and the density both have two states, the n and n-1
    terms of the residual merge: after construction and [setup], each
    integration point owned by node n subtracts
    (gamma1 rho_np1 u_np1_j + (gamma2 + gamma3) rho_n u_n_j) scV / dt
    + Gjp_j scV from the residual entry (n, j). *)
Theorem two_state_fields_merge_gammas (meSCV : MasterElement)
    (metaData : MetaData) (solnOpts : SolutionOptions)
    (dataPreReqs reqs' : ElemDataRequests) (lumpedMass : bool)
    (k0 : Kernel) (velocity density : Field)
    (timeIntegrator : TimeIntegrator) (lhs : View2 D) (rhs : View1 D)
    (sv : ScratchViews) (n j : nat) :
  MomentumMassElemKernel AlgTraits meSCV metaData solnOpts dataPreReqs
    lumpedMass = Some (k0, reqs') ->
  get_field metaData "velocity" = Some velocity ->
  get_field metaData "density" = Some density ->
  number_of_states velocity = 2 ->
  number_of_states density = 2 ->
  j < nDim ->
  let k := setup timeIntegrator k0 in
  rhs_ (execute AlgTraits lhs rhs sv k) (n * nDim + j)%nat
  = for_loop numScvIp
      (fun ip acc =>
         if Nat.eqb (nearestNode k ip) n
         then acc
              - ((get_gamma1 timeIntegrator * rho_np1 AlgTraits sv k ip
                    * u_np1 AlgTraits sv k ip j
                  + (get_gamma2 timeIntegrator + get_gamma3 timeIntegrator)
                    * rho_n AlgTraits sv k ip * u_n AlgTraits sv k ip j)
                 * scV sv ip / get_time_step timeIntegrator
                 + Gjp AlgTraits sv k ip j * scV sv ip)
         else acc)
      (rhs (n * nDim + j)%nat).
Proof.
  intros Hk Hv Hd Sv Sd Hj. cbv zeta.
  unfold MomentumMassElemKernel in Hk. rewrite Hv, Hd, Sv, Sd in Hk.
  destruct (get_field metaData "dpdx") as [Gp|]; [|discriminate].
  destruct (get_field metaData (get_coordinates_name solnOpts)) as [co|];
    [|discriminate].
  injection Hk as Hk _. simpl in Hk.
  rewrite execute_rhs, (rhs_after_node AlgTraits sv _ n j _ Hj).
  apply for_loop_ext. intros ip acc _. unfold owns, nearestNode.
  destruct (Nat.eqb _ n); [|reflexivity].
  rewrite (add_rhs_increment AlgTraits done dinv Dfield).
  unfold rhs_subtrahend, rho_nm1, rho_n, u_nm1, u_n.
  subst k0. simpl. rewrite !(Fdiv_def Dfield). ring.
Qed.

(** Interpolation with a row that is 1 at local node [m] and 0 elsewhere
    returns the nodal value of [m]. *)
Lemma interp_from_nodal_row (w v : View1 D) (m n : nat) (a : D) :
  (forall ic, ic < n -> w ic = if Nat.eqb ic m then done else dzero) ->
  interp_from w v n a = if m <? n then a + v m else a.
Proof.
  unfold interp_from. intros Hw.
  induction n as [|n IH]; [reflexivity|]. simpl.
  rewrite IH by (intros; apply Hw; lia). rewrite (Hw n) by lia.
  destruct (Nat.eqb_spec n m) as [->|Hne].
  - replace (m <? m) with false by (symmetry; apply Nat.ltb_irrefl).
    replace (m <? S m) with true by (symmetry; apply Nat.ltb_lt; lia).
    ring.
  - destruct (m <? n) eqn:E.
    + apply Nat.ltb_lt in E.
      replace (m <? S n) with true by (symmetry; apply Nat.ltb_lt; lia).
      ring.
    + apply Nat.ltb_ge in E.
      replace (m <? S n) with false by (symmetry; apply Nat.ltb_ge; lia).
      ring.
Qed.

(** X10.  Mass lumping.  When every row of the shape-function table is 1 at the
    owning node of its integration point and 0 at the other local nodes,
    [execute] adds to the Jacobian only where row and column are the same
    node and dimension, there gamma1 rho scV / dt with rho the gathered n+1
    density of that node; the entries that pair a node with another node
    keep their content. *)
Theorem nodal_table_gives_diagonal_jacobian (lhs : View2 D) (rhs : View1 D)
    (sv : ScratchViews) (k : Kernel) (n ic j : nat) :
  (forall ip, ip < numScvIp -> nearestNode k ip < nodesPerElement) ->
  (forall ip ic, ip < numScvIp -> ic < nodesPerElement ->
     weight k ip ic = if Nat.eqb ic (nearestNode k ip) then done else dzero) ->
  ic < nodesPerElement ->
  j < nDim ->
  lhs_ (execute AlgTraits lhs rhs sv k) (n * nDim + j)%nat (ic * nDim + j)%nat
  = if Nat.eqb ic n
    then for_loop numScvIp
           (fun ip acc =>
              if Nat.eqb (nearestNode k ip) n
              then acc + gamma1_ k * get_scratch_view_1D sv (densityNp1_ k) n
                         * scV sv ip / dt_ k
              else acc)
           (lhs (n * nDim + j)%nat (ic * nDim + j)%nat)
    else lhs (n * nDim + j)%nat (ic * nDim + j)%nat.
Proof.
  intros Hnn Hw Hic Hj.
  rewrite execute_lhs, (lhs_after_node AlgTraits sv k n ic j _ Hic Hj).
  assert (Hinc : forall ip, ip < numScvIp -> nearestNode k ip = n ->
             lhs_increment AlgTraits sv k ip ic
             = if Nat.eqb ic n
               then gamma1_ k * get_scratch_view_1D sv (densityNp1_ k) n
                    * scV sv ip / dt_ k
               else dzero).
  { intros ip Hip En. unfold lhs_increment, rho_np1, interpolate.
    rewrite (interp_from_nodal_row (weight k ip) _ (nearestNode k ip))
      by (intros; apply Hw; assumption).
    rewrite (Hw ip ic Hip Hic), En.
    pose proof (Hnn ip Hip) as Hlt. rewrite En in Hlt.
    apply Nat.ltb_lt in Hlt. rewrite Hlt.
    destruct (Nat.eqb ic n); rewrite !(Fdiv_def Dfield); ring. }
  destruct (Nat.eqb ic n) eqn:E.
  - apply for_loop_ext. intros ip acc Hip. unfold owns, nearestNode in *.
    destruct (Nat.eqb_spec (ipNodeMap_ k ip) n) as [En|]; [|reflexivity].
    rewrite (Hinc ip Hip En). reflexivity.
  - rewrite (for_loop_ext numScvIp _ (fun _ acc => acc)).
    + apply for_loop_skip.
    + intros ip acc Hip. unfold owns, nearestNode in *.
      destruct (Nat.eqb_spec (ipNodeMap_ k ip) n) as [En|]; [|reflexivity].
      rewrite (Hinc ip Hip En). ring.
Qed.

(** X11.  Mass lumping, residual.  With such a table every interpolated quantity
    is the gathered value at the owning node, so each integration point
    owned by node n subtracts from the residual entry (n, j) the quantity
    (gamma1 rho_np1 u_np1_j + gamma2 rho_n u_n_j + gamma3 rho_nm1 u_nm1_j)
    scV / dt + Gjp_j scV formed from the gathered values of node n
    itself. *)
Theorem nodal_table_gives_nodal_residual (lhs : View2 D) (rhs : View1 D)
    (sv : ScratchViews) (k : Kernel) (n j : nat) :
  (forall ip, ip < numScvIp -> nearestNode k ip < nodesPerElement) ->
  (forall ip ic, ip < numScvIp -> ic < nodesPerElement ->
     weight k ip ic = if Nat.eqb ic (nearestNode k ip) then done else dzero) ->
  j < nDim ->
  rhs_ (execute AlgTraits lhs rhs sv k) (n * nDim + j)%nat
  = for_loop numScvIp
      (fun ip acc =>
         if Nat.eqb (nearestNode k ip) n
         then acc
              - ((gamma1_ k * get_scratch_view_1D sv (densityNp1_ k) n
                    * get_scratch_view_2D sv (velocityNp1_ k) n j
                  + gamma2_ k * get_scratch_view_1D sv (densityN_ k) n
                    * get_scratch_view_2D sv (velocityN_ k) n j
                  + gamma3_ k * get_scratch_view_1D sv (densityNm1_ k) n
                    * get_scratch_view_2D sv (velocityNm1_ k) n j)
                 * scV sv ip / dt_ k
                 + get_scratch_view_2D sv (Gjp_ k) n j * scV sv ip)
         else acc)
      (rhs (n * nDim + j)%nat).
Proof.
  intros Hnn Hw Hj.
  rewrite execute_rhs, (rhs_after_node AlgTraits sv k n j _ Hj).
  apply for_loop_ext. intros ip acc Hip. unfold owns, nearestNode in *.
  destruct (Nat.eqb_spec (ipNodeMap_ k ip) n) as [En|]; [|reflexivity].
  rewrite (add_rhs_increment AlgTraits done dinv Dfield).
  unfold rhs_subtrahend, rho_nm1, rho_n, rho_np1, u_nm1, u_n, u_np1, Gjp,
    interpolate.
  rewrite !(interp_from_nodal_row (weight k ip) _ (ipNodeMap_ k ip))
    by (intros; apply Hw; assumption).
  pose proof (Hnn ip Hip) as Hlt. apply Nat.ltb_lt in Hlt.
  rewrite Hlt, En. rewrite !(Fdiv_def Dfield). ring.
Qed.

(** Sums over the local nodes. *)
Lemma node_sum_add (n : nat) (f g : nat -> D) :
  for_loop n (fun ic acc => acc + (f ic + g ic)) dzero
  = for_loop n (fun ic acc => acc + f ic) dzero
    + for_loop n (fun ic acc => acc + g ic) dzero.
Proof.
  induction n as [|n IH]; simpl.
  - ring.
  - rewrite IH. ring.
Qed.

Lemma node_sum_scale (n : nat) (w : nat -> D) (c : D) :
  for_loop n (fun ic acc => acc + w ic * c) dzero
  = for_loop n (fun ic acc => acc + w ic) dzero * c.
Proof.
  induction n as [|n IH]; simpl.
  - ring.
  - rewrite IH. ring.
Qed.

Lemma node_sum_zero (n : nat) :
  for_loop n (fun _ acc => acc + dzero) dzero = dzero.
Proof.
  induction n as [|n IH]; simpl.
  - reflexivity.
  - rewrite IH. ring.
Qed.

(** X12.  Row sums of the Jacobian.  When every row of the shape-function table
    sums to one, the entries [execute] leaves in a zeroed Jacobian on row
    (n, j), summed over the columns (ic, j) of all local nodes, give the sum
    over the integration points owned by node n of gamma1 rho_np1 scV / dt:
    the weights distribute that amount over the columns and change nothing
    of its total. *)
Theorem jacobian_row_sum (sv : ScratchViews) (k : Kernel) (n j : nat) :
  (forall ip, ip < numScvIp -> row_sum AlgTraits (weight k ip) = done) ->
  j < nDim ->
  for_loop nodesPerElement
    (fun ic acc =>
       acc + lhs_ (execute AlgTraits zero_lhs zero_rhs sv k)
               (n * nDim + j)%nat (ic * nDim + j)%nat)
    dzero
  = for_loop numScvIp
      (fun ip acc =>
         if Nat.eqb (nearestNode k ip) n
         then acc + gamma1_ k * rho_np1 AlgTraits sv k ip * scV sv ip / dt_ k
         else acc)
      dzero.
Proof.
  intros Hw Hj.
  rewrite (for_loop_ext nodesPerElement _
             (fun ic acc =>
                acc + for_loop numScvIp
                        (fun ip acc =>
                           if owns k n ip
                           then acc + lhs_increment AlgTraits sv k ip ic
                           else acc)
                        dzero)).
  2:{ intros ic acc Hic. rewrite execute_lhs.
      rewrite (lhs_after_node AlgTraits sv k n ic j _ Hic Hj).
      reflexivity. }
  unfold owns, nearestNode.
  assert (G : forall m, m <= numScvIp ->
            for_loop nodesPerElement
              (fun ic acc =>
                 acc + for_loop m
                         (fun ip acc =>
                            if Nat.eqb (ipNodeMap_ k ip) n
                            then acc + lhs_increment AlgTraits sv k ip ic
                            else acc)
                         dzero)
              dzero
            = for_loop m
                (fun ip acc =>
                   if Nat.eqb (ipNodeMap_ k ip) n
                   then acc + gamma1_ k * rho_np1 AlgTraits sv k ip
                              * scV sv ip / dt_ k
                   else acc)
                dzero).
  { induction m as [|m IH]; intros Hm.
    - simpl. apply node_sum_zero.
    - simpl. destruct (Nat.eqb (ipNodeMap_ k m) n).
      + rewrite node_sum_add, IH by lia. f_equal.
        unfold lhs_increment.
        rewrite (for_loop_ext nodesPerElement _
                   (fun ic acc =>
                      acc + weight k m ic
                            * (gamma1_ k * rho_np1 AlgTraits sv k m
                               * scV sv m / dt_ k))).
        * rewrite node_sum_scale.
          pose proof (Hw m Hm) as H1. unfold row_sum in H1. rewrite H1. ring.
        * intros ic acc _. rewrite !(Fdiv_def Dfield). ring.
      + apply IH. lia. }
  apply G. lia.
Qed.

End ExactConsequences.

(** * The further properties at concrete inputs *)

Lemma execute_keeps_kernel_members_witness :
  let k := tri3_kernel Binary64.ratio in
  let k' := this_ (execute tri3 zero_lhs zero_rhs
                     (tri3_views Binary64.ratio) k) in
  dt_ k' = dt_ k /\ gamma3_ k' = gamma3_ k
  /\ v_shape_function_ k' = v_shape_function_ k
  /\ (nDim_ tri3 <= 2 /\ v_uNp1_ k' 2 = v_uNp1_ k 2).
Proof.
  intros k k'.
  destruct (execute_keeps_kernel_members tri3 zero_lhs zero_rhs
              (tri3_views Binary64.ratio) k) as [Hm Hv].
  destruct Hm as (_ & _ & _ & _ & _ & _ & _ & _ & _ & _
                  & Hdt & _ & _ & Hg3 & Hw).
  assert (H2 : nDim_ tri3 <= 2) by (simpl; lia).
  destruct (Hv 2 H2) as (_ & _ & Hu & _).
  split; [exact Hdt | split; [exact Hg3 | split; [exact Hw |]]].
  split; [exact H2 | exact Hu].
Defined.

Lemma execute_leaves_last_interpolation_witness :
  let k := tri3_kernel Binary64.ratio in
  let sv := tri3_views Binary64.ratio in
  let k' := this_ (execute tri3 zero_lhs zero_rhs sv k) in
  0 < numScvIp_ tri3 /\ 1 < nDim_ tri3
  /\ v_uNp1_ k' 1 = u_np1 tri3 sv k 2 1
  /\ v_Gjp_ k' 1 = Gjp tri3 sv k 2 1.
Proof.
  intros k sv k'.
  assert (H0 : 0 < numScvIp_ tri3) by (simpl; lia).
  assert (H1 : 1 < nDim_ tri3) by (simpl; lia).
  destruct (execute_leaves_last_interpolation tri3 zero_lhs zero_rhs sv k 1
              H0 H1) as (_ & _ & Hu & Hg).
  split; [exact H0 | split; [exact H1 | split; [exact Hu | exact Hg]]].
Defined.

Lemma execute_on_empty_loops_witness :
  let k := tri3_kernel Binary64.ratio in
  let sv := tri3_views Binary64.ratio in
  let rhs := fun i : nat => Binary64.ratio (Z.of_nat i) 7 in
  let lhs := fun r c : nat => Binary64.ratio (Z.of_nat (r + 3 * c)) 1 in
  rhs_ (execute (MkTraits 2 3 0) lhs rhs sv k) 4 = rhs 4
  /\ lhs_ (execute (MkTraits 2 0 3) lhs rhs sv k) 2 2 = lhs 2 2.
Proof.
  intros k sv rhs lhs. split.
  - apply (proj1 (execute_on_empty_loops (MkTraits 2 3 0) lhs rhs sv k)).
    left. reflexivity.
  - apply (proj2 (execute_on_empty_loops (MkTraits 2 0 3) lhs rhs sv k)).
    right. right. reflexivity.
Defined.

Lemma jacobian_reads_density_and_volume_only_witness :
  let k := tri3_kernel Binary64.ratio in
  lhs_ (execute tri3 zero_lhs zero_rhs (tri3_views Binary64.ratio) k) 2 4
  = lhs_ (execute tri3 zero_lhs (fun _ => Binary64.ratio 1 3)
            (tri3_views_other_flow Binary64.ratio) k) 2 4.
Proof.
  intros k.
  apply (jacobian_reads_density_and_volume_only tri3 k).
  - intros ic Hic. reflexivity.
  - intros ip Hip. reflexivity.
Defined.

Lemma jacobian_is_residual_derivative_witness :
  let k := tri3_kernel Exact.ratio in
  let sv := tri3_views Exact.ratio in
  let sv' := tri3_views_perturbed Exact.ratio in
  rhs_ (execute tri3 zero_lhs zero_rhs sv' k) (2 * 2 + 0)
  = dsub (rhs_ (execute tri3 zero_lhs zero_rhs sv k) (2 * 2 + 0))
      (dmul (lhs_ (execute tri3 zero_lhs zero_rhs sv k) (2 * 2 + 0)
               (1 * 2 + 0))
         (Exact.ratio 1 4))
  /\ rhs_ (execute tri3 zero_lhs zero_rhs sv' k) (2 * 2 + 1)
     = rhs_ (execute tri3 zero_lhs zero_rhs sv k) (2 * 2 + 1).
Proof.
  intros k sv sv'.
  assert (Hd : ~ In (velocityNp1_ k)
                 (velocityNm1_ k :: velocityN_ k :: Gjp_ k :: nil)).
  { simpl. intros [H | [H | [H | H]]]; try discriminate H; exact H. }
  assert (Hic : 1 < nodesPerElement_ tri3) by (simpl; lia).
  assert (Hj0 : 0 < nDim_ tri3) by (simpl; lia).
  assert (Hj1 : 1 < nDim_ tri3) by (simpl; lia).
  assert (Hne : 1 <> 0) by lia.
  destruct (jacobian_is_residual_derivative tri3 Exact.one Exact.inv
              Exact.Qc_field k sv sv' 1 0 (Exact.ratio 1 4) Hd Hic Hj0)
    with (lhs := @zero_lhs Qcanon.Qc _) (rhs := @zero_rhs Qcanon.Qc _)
         (n := 2) as [Ha Hb].
  - intros h ic. reflexivity.
  - intros h ic j Hn. simpl.
    destruct (Nat.eqb_spec h 10) as [Eh|]; [|reflexivity].
    destruct (Nat.eqb_spec ic 1) as [Ei|]; [|reflexivity].
    destruct (Nat.eqb_spec j 0) as [Ej|]; [|reflexivity].
    exfalso. apply Hn. auto.
  - reflexivity.
  - intros ip. reflexivity.
  - split; [exact Ha | exact (Hb 1 Hj1 Hne)].
Defined.

Lemma two_state_fields_merge_gammas_witness :
  let k := setup (bdf2 Exact.ratio) (tri3_new_two_state Exact.ratio) in
  let sv := tri3_views Exact.ratio in
  rhs_ (execute tri3 zero_lhs zero_rhs sv k) (1 * 2 + 1)
  = for_loop 3
      (fun ip acc =>
         if Nat.eqb (nearestNode k ip) 1
         then dsub acc
                (dadd
                   (ddiv
                      (dmul
                         (dadd
                            (dmul (dmul (Exact.ratio 3 2)
                                     (rho_np1 tri3 sv k ip))
                               (u_np1 tri3 sv k ip 1))
                            (dmul (dmul (dadd (Exact.ratio (-2) 1)
                                           (Exact.ratio 1 2))
                                     (rho_n tri3 sv k ip))
                               (u_n tri3 sv k ip 1)))
                         (scV sv ip))
                      (Exact.ratio 1 10))
                   (dmul (Gjp tri3 sv k ip 1) (scV sv ip)))
         else acc)
      (zero_rhs (1 * 2 + 1)).
Proof.
  intros k sv.
  assert (Hj : 1 < nDim_ tri3) by (simpl; lia).
  exact (two_state_fields_merge_gammas tri3 Exact.one Exact.inv
           Exact.Qc_field (tri3_scv Exact.ratio) tri3_mesh_two_state
           tri3_options nil _ false (tri3_new_two_state Exact.ratio)
           (MkField 10 2
              (fun s => match s with
                        | StateNP1 => 10 | StateN => 11 | StateNM1 => 12
                        end))
           (MkField 20 2
              (fun s => match s with
                        | StateNP1 => 20 | StateN => 21 | StateNM1 => 22
                        end))
           (bdf2 Exact.ratio) zero_lhs zero_rhs sv 1 1
           eq_refl eq_refl eq_refl eq_refl eq_refl Hj).
Defined.

Lemma nodal_table_gives_diagonal_jacobian_witness :
  let k := tri3_kernel_lumped Exact.ratio in
  let sv := tri3_views Exact.ratio in
  let J := lhs_ (execute tri3 zero_lhs zero_rhs sv k) in
  J (1 * 2 + 0) (2 * 2 + 0) = zero_lhs (1 * 2 + 0) (2 * 2 + 0)
  /\ J (1 * 2 + 0) (1 * 2 + 0)
     = for_loop 3
         (fun ip acc =>
            if Nat.eqb (nearestNode k ip) 1
            then dadd acc
                   (ddiv
                      (dmul
                         (dmul (gamma1_ k)
                            (get_scratch_view_1D sv (densityNp1_ k) 1))
                         (scV sv ip))
                      (dt_ k))
            else acc)
         (zero_lhs (1 * 2 + 0) (1 * 2 + 0)).
Proof.
  intros k sv J.
  assert (Hnn : forall ip, ip < numScvIp_ tri3 ->
                           nearestNode k ip < nodesPerElement_ tri3).
  { intros ip Hip. exact Hip. }
  assert (Hw : forall ip ic, ip < numScvIp_ tri3 ->
                 ic < nodesPerElement_ tri3 ->
                 weight k ip ic
                 = if Nat.eqb ic (nearestNode k ip) then Exact.one
                   else dzero).
  { intros ip ic _ _. unfold weight, nearestNode. simpl.
    rewrite (Nat.eqb_sym ip ic). destruct (Nat.eqb ic ip); reflexivity. }
  assert (H1 : 1 < nodesPerElement_ tri3) by (simpl; lia).
  assert (H2 : 2 < nodesPerElement_ tri3) by (simpl; lia).
  assert (Hj : 0 < nDim_ tri3) by (simpl; lia).
  split.
  - exact (nodal_table_gives_diagonal_jacobian tri3 Exact.one Exact.inv
             Exact.Qc_field zero_lhs zero_rhs sv k 1 2 0 Hnn Hw H2 Hj).
  - exact (nodal_table_gives_diagonal_jacobian tri3 Exact.one Exact.inv
             Exact.Qc_field zero_lhs zero_rhs sv k 1 1 0 Hnn Hw H1 Hj).
Defined.

Lemma nodal_table_gives_nodal_residual_witness :
  let k := tri3_kernel_lumped Exact.ratio in
  let sv := tri3_views Exact.ratio in
  rhs_ (execute tri3 zero_lhs zero_rhs sv k) (1 * 2 + 0)
  = for_loop 3
      (fun ip acc =>
         if Nat.eqb (nearestNode k ip) 1
         then dsub acc
                (dadd
                   (ddiv
                      (dmul
                         (dadd
                            (dadd
                               (dmul
                                  (dmul (gamma1_ k)
                                     (get_scratch_view_1D sv
                                        (densityNp1_ k) 1))
                                  (get_scratch_view_2D sv
                                     (velocityNp1_ k) 1 0))
                               (dmul
                                  (dmul (gamma2_ k)
                                     (get_scratch_view_1D sv
                                        (densityN_ k) 1))
                                  (get_scratch_view_2D sv
                                     (velocityN_ k) 1 0)))
                            (dmul
                               (dmul (gamma3_ k)
                                  (get_scratch_view_1D sv
                                     (densityNm1_ k) 1))
                               (get_scratch_view_2D sv
                                  (velocityNm1_ k) 1 0)))
                         (scV sv ip))
                      (dt_ k))
                   (dmul (get_scratch_view_2D sv (Gjp_ k) 1 0) (scV sv ip)))
         else acc)
      (zero_rhs (1 * 2 + 0)).
Proof.
  intros k sv.
  assert (Hnn : forall ip, ip < numScvIp_ tri3 ->
                           nearestNode k ip < nodesPerElement_ tri3).
  { intros ip Hip. exact Hip. }
  assert (Hw : forall ip ic, ip < numScvIp_ tri3 ->
                 ic < nodesPerElement_ tri3 ->
                 weight k ip ic
                 = if Nat.eqb ic (nearestNode k ip) then Exact.one
                   else dzero).
  { intros ip ic _ _. unfold weight, nearestNode. simpl.
    rewrite (Nat.eqb_sym ip ic). destruct (Nat.eqb ic ip); reflexivity. }
  assert (Hj : 0 < nDim_ tri3) by (simpl; lia).
  exact (nodal_table_gives_nodal_residual tri3 Exact.one Exact.inv
           Exact.Qc_field zero_lhs zero_rhs sv k 1 0 Hnn Hw Hj).
Defined.

Lemma jacobian_row_sum_witness :
  let k := tri3_kernel Exact.ratio in
  let sv := tri3_views Exact.ratio in
  for_loop 3
    (fun ic acc =>
       dadd acc
         (lhs_ (execute tri3 zero_lhs zero_rhs sv k) (1 * 2 + 1)
            (ic * 2 + 1)))
    dzero
  = for_loop 3
      (fun ip acc =>
         if Nat.eqb (nearestNode k ip) 1
         then dadd acc
                (ddiv (dmul (dmul (gamma1_ k) (rho_np1 tri3 sv k ip))
                         (scV sv ip))
                   (dt_ k))
         else acc)
      dzero.
Proof.
  intros k sv.
  assert (Hj : 1 < nDim_ tri3) by (simpl; lia).
  apply (jacobian_row_sum tri3 Exact.one Exact.inv Exact.Qc_field sv k 1 1);
    [|exact Hj].
  intros ip Hip.
  destruct ip as [|[|[|ip]]];
    [ apply Qcanon.Qc_is_canon; reflexivity
    | apply Qcanon.Qc_is_canon; reflexivity
    | apply Qcanon.Qc_is_canon; reflexivity
    | simpl in Hip; lia ].
Defined.

Lemma execute_adds_own_contribution_witness :
  let k := tri3_kernel Exact.ratio in
  let sv := tri3_views Exact.ratio in
  let rhs := fun i : nat => Exact.ratio (Z.of_nat i) 7 in
  let lhs := fun r c : nat => Exact.ratio (Z.of_nat (r + 3 * c)) 1 in
  rhs_ (execute tri3 lhs rhs sv k) 3
  = dadd (rhs 3) (rhs_ (execute tri3 zero_lhs zero_rhs sv k) 3)
  /\ lhs_ (execute tri3 lhs rhs sv k) 2 4
     = dadd (lhs 2 4) (lhs_ (execute tri3 zero_lhs zero_rhs sv k) 2 4).
Proof.
  intros k sv rhs lhs.
  exact (execute_adds_own_contribution tri3 Exact.one Exact.inv
           Exact.Qc_field lhs rhs sv k 3 2 4).
Defined.

(** * Binary64 against the exact reading *)



(** C3 as stated fails in binary64 by rounding: on the triangle, whose
    weight rows sum to 1.0, with density 1, velocity (1/3, 0), no pressure
    gradient, gammas (1, 0, 0) and dt = 1/8, the residual entry (0, 0) that
    [execute] leaves is not the value of the formula. *)
Lemma uniform_state_residual_differs_binary64 :
  let k := setup (implicit_only Binary64.ratio) (tri3_new Binary64.ratio) in
  let sv := tri3_views_third Binary64.ratio in
  let rho := Binary64.ratio 1 1 in
  let u := fun j : nat => if Nat.eqb j 0 then Binary64.ratio 1 3
                          else Binary64.ratio 0 1 in
  (forall ip, ip < numScvIp_ tri3 ->
     row_sum tri3 (weight k ip) = Binary64.ratio 1 1)
  /\ (forall ic, ic < nodesPerElement_ tri3 ->
        get_scratch_view_1D sv (densityNm1_ k) ic = rho
        /\ get_scratch_view_1D sv (densityN_ k) ic = rho
        /\ get_scratch_view_1D sv (densityNp1_ k) ic = rho)
  /\ (forall ic j, ic < nodesPerElement_ tri3 -> j < nDim_ tri3 ->
        get_scratch_view_2D sv (velocityNm1_ k) ic j = u j
        /\ get_scratch_view_2D sv (velocityN_ k) ic j = u j
        /\ get_scratch_view_2D sv (velocityNp1_ k) ic j = u j)
  /\ rhs_ (execute tri3 zero_lhs zero_rhs sv k) (0 * 2 + 0)
     <> for_loop 3
          (fun ip acc =>
             if Nat.eqb (nearestNode k ip) 0
             then dadd acc
                    (dsub
                       (ddiv
                          (dmul
                             (dmul
                                (dmul
                                   (dopp (dadd (dadd (gamma1_ k) (gamma2_ k))
                                            (gamma3_ k)))
                                   rho)
                                (u 0))
                             (scV sv ip))
                          (dt_ k))
                       (dmul (Gjp tri3 sv k ip 0) (scV sv ip)))
             else acc)
          (zero_rhs (0 * 2 + 0)).
Proof.
  intros k sv rho u. split; [|split; [|split]].
  - intros ip Hip.
    destruct ip as [|[|[|ip]]];
      [ vm_compute; reflexivity | vm_compute; reflexivity
      | vm_compute; reflexivity | simpl in Hip; lia ].
  - intros ic Hic. repeat split.
  - intros ic j Hic Hj.
    destruct j as [|[|j]]; [repeat split | repeat split | simpl in Hj; lia].
  - intros H.
    apply (f_equal
             (PrimFloat.eqb
                (rhs_ (execute tri3 zero_lhs zero_rhs sv k) (0 * 2 + 0))))
      in H.
    vm_compute in H. discriminate H.
Qed.

